(** * Contact information detector

    A shallow embedding of [contact_info_checker/contact_detector.py]:
    the compiled pattern tables, the boolean check [contains_contact_info]
    and the detailed report [detect_contact_info], together with the part
    of Python's [re] engine (sre) that the patterns of the module use. *)

From Stdlib Require Import NArith Ascii String List Bool Lia.
From stdpp Require Import base option list gmap strings sets.

(** ** Text

    A Python [str] is a sequence of Unicode code points. *)

Abbreviation str := (list N).

Definition code (a : ascii) : N := N_of_ascii a.

Definition codes (s : string) : str := map code (list_ascii_of_string s).

(** [text[s:e]] for [0 <= s <= e]. *)
Definition slice (t : str) (s e : nat) : str := take (e - s) (drop s t).

(** ** Character classification

    CPython answers [\d], [\s], [\w] and case folding from its Unicode
    database.  The ASCII rows of that database are written out below; the
    rows of the other code points are the fields of a [unicode_db]. *)

Record unicode_db := UnicodeDb {
  uni_alpha : N -> bool;
  uni_decimal : N -> bool;
  uni_digit : N -> bool;
  uni_numeric : N -> bool;
  uni_space : N -> bool;
  uni_lower : N -> N;
  uni_upper : N -> N
}.

Local Open Scope N_scope.

Definition between (lo hi c : N) : bool := (lo <=? c) && (c <=? hi).

Definition ascii_upper_letter (c : N) : bool := between 65 90 c.
Definition ascii_lower_letter (c : N) : bool := between 97 122 c.
Definition ascii_letter (c : N) : bool := ascii_upper_letter c || ascii_lower_letter c.
Definition ascii_digit (c : N) : bool := between 48 57 c.

(** [_Py_ascii_whitespace]: TAB, LF, VT, FF, CR, FS, GS, RS, US and space. *)
Definition ascii_space (c : N) : bool := between 9 13 c || between 28 32 c.

(** The database in which no code point outside ASCII is classified and
    case folding leaves those code points alone. *)
Definition ascii_only : unicode_db :=
  UnicodeDb (fun _ => false) (fun _ => false) (fun _ => false) (fun _ => false)
            (fun _ => false) (fun c => c) (fun c => c).

Section Unicode.

Variable U : unicode_db.

Definition is_alpha (c : N) : bool := if c <? 128 then ascii_letter c else uni_alpha U c.
Definition is_decimal (c : N) : bool := if c <? 128 then ascii_digit c else uni_decimal U c.
Definition is_digit (c : N) : bool := if c <? 128 then ascii_digit c else uni_digit U c.
Definition is_numeric (c : N) : bool := if c <? 128 then ascii_digit c else uni_numeric U c.
Definition is_space (c : N) : bool := if c <? 128 then ascii_space c else uni_space U c.

(** [Py_UNICODE_ISALNUM] and [SRE_UNI_IS_WORD]. *)
Definition is_alnum (c : N) : bool := is_alpha c || is_decimal c || is_digit c || is_numeric c.
Definition is_word (c : N) : bool := is_alnum c || (c =? 95).

(** [sre_lower_unicode] and [sre_upper_unicode]. *)
Definition to_lower (c : N) : N :=
  if c <? 128 then (if ascii_upper_letter c then c + 32 else c) else uni_lower U c.
Definition to_upper (c : N) : N :=
  if c <? 128 then (if ascii_lower_letter c then c - 32 else c) else uni_upper U c.

(** [_sre.unicode_iscased]. *)
Definition iscased (c : N) : bool := negb (c =? to_lower c) || negb (c =? to_upper c).

(** ** Patterns

    The parsed form of the regular expressions of the module.  Every
    repetition in them ranges over a single character (a literal or a
    set), which sre compiles to [REPEAT_ONE]; groups are non-capturing. *)

Inductive category := CatDigit | CatSpace.

Inductive set_item :=
| Literal (c : N)
| Range (lo hi : N)
| Category (k : category).

Inductive atom :=
| Lit (c : N)
| In (items : list set_item).

Inductive regex :=
| One (a : atom)
| Repeat (lo : nat) (hi : option nat) (a : atom)
| AtBeginning
| AtBoundary
| Branch (r1 r2 : regex)
| Seq (r1 r2 : regex)
| Empty.

(** A parsed pattern is a sequence of items. *)
Definition cat (rs : list regex) : regex := fold_right Seq Empty rs.

(** [re.compile(regex, flags)], the only flag in use being [re.IGNORECASE]. *)
Record pattern := Pattern { pat_regex : regex; pat_ignorecase : bool }.

(** *** Matching one character *)

Definition in_category (k : category) (c : N) : bool :=
  match k with
  | CatDigit => is_decimal c
  | CatSpace => is_space c
  end.

Definition item_match (it : set_item) (c : N) : bool :=
  match it with
  | Literal a => c =? a
  | Range lo hi => between lo hi c
  | Category k => in_category k c
  end.

(** The entries of sre's [_equivalences] table whose key is an ASCII
    letter: i ~ dotless i (U+0131) and s ~ long s (U+017F).  The pattern
    characters of the module are ASCII, so no other key is looked up. *)
Definition fixes (lo : N) : list N :=
  if lo =? 105 then [305] else if lo =? 115 then [383] else [].

(** The code points that [_optimize_charset] marks for a pattern
    character [a] under IGNORECASE: its lower case and the equivalents. *)
Definition folded (a c : N) : bool :=
  let lo := to_lower a in (c =? lo) || existsb (N.eqb c) (fixes lo).

Definition range_list (lo hi : N) : list N :=
  map N.of_nat (seq (N.to_nat lo) (N.to_nat hi + 1 - N.to_nat lo)).

Definition item_match_ignore (it : set_item) (c : N) : bool :=
  match it with
  | Literal a => folded a c
  | Range lo hi => existsb (fun a => folded a c) (range_list lo hi)
  | Category k => in_category k c
  end.

Definition item_cased (it : set_item) : bool :=
  match it with
  | Literal a => iscased a
  | Range lo hi => existsb iscased (range_list lo hi)
  | Category _ => false
  end.

Definition hascased (items : list set_item) : bool := existsb item_cased items.

(** [LITERAL] / [LITERAL_UNI_IGNORE] and [IN] / [IN_UNI_IGNORE]: the
    ignoring variants are emitted only for cased pattern characters and
    test the lower case of the text character. *)
Definition atom_match (ic : bool) (a : atom) (c : N) : bool :=
  match a with
  | Lit x =>
      if ic && iscased x then folded x (to_lower c) else c =? x
  | In items =>
      if ic && hascased items
      then existsb (fun it => item_match_ignore it (to_lower c)) items
      else existsb (fun it => item_match it c) items
  end.

Local Close Scope N_scope.

(** *** Matching at a position *)

Definition word_at (t : str) (i : nat) : bool :=
  match t !! i with
  | Some c => is_word c
  | None => false
  end.

(** [AT_UNI_BOUNDARY]: the characters before and after the position
    differ in being word characters; outside the text counts as no word
    character. *)
Definition at_boundary (t : str) (i : nat) : bool :=
  let that := match i with O => false | S j => word_at t j end in
  let this := word_at t i in
  xorb this that.

(** [SRE(count)]: how many characters at the front of [l] the atom accepts. *)
Fixpoint count (ic : bool) (a : atom) (l : str) : nat :=
  match l with
  | c :: l' => if atom_match ic a c then S (count ic a l') else O
  | [] => O
  end.

(** The characters a repetition may consume at position [i]: all that
    follow, or the first [h] of them when the repetition is bounded. *)
Definition window (t : str) (i : nat) (hi : option nat) : str :=
  match hi with
  | Some h => take h (drop i t)
  | None => drop i t
  end.

(** [n, n-1, ..., lo]: a greedy repetition gives characters back one at a time. *)
Definition countdown (lo n : nat) : list nat := reverse (seq lo (S n - lo)).

(** The positions at which a match of [r] started at [i] can end, in
    the order in which the backtracking matcher reaches them. *)
Fixpoint ends (ic : bool) (t : str) (r : regex) (i : nat) : list nat :=
  match r with
  | One a =>
      match t !! i with
      | Some c => if atom_match ic a c then [S i] else []
      | None => []
      end
  | Repeat lo hi a =>
      let n := count ic a (window t i hi) in
      if n <? lo then [] else (fun k => i + k) <$> countdown lo n
  | AtBeginning => if i =? 0 then [i] else []
  | AtBoundary => if at_boundary t i then [i] else []
  | Branch r1 r2 => ends ic t r1 i ++ ends ic t r2 i
  | Seq r1 r2 => ends ic t r1 i ≫= ends ic t r2
  | Empty => [i]
  end.

(** [SRE(match)] at the top level: the first end reached; with
    [must_advance] set, an empty match at the start is passed over. *)
Definition match_at (p : pattern) (t : str) (i : nat) (must_advance : bool) : option nat :=
  List.find (fun e => negb (must_advance && (e =? i)))
            (ends (pat_ignorecase p) t (pat_regex p) i).

(** [SRE(search)]: try the start position, then every later one up to
    the end of the text; [must_advance] holds for the first try only. *)
Fixpoint scan (p : pattern) (t : str) (must_advance : bool) (i left : nat) : option (nat * nat) :=
  match match_at p t i must_advance with
  | Some e => Some (i, e)
  | None =>
      match left with
      | O => None
      | S left' => scan p t false (S i) left'
      end
  end.

Definition search_from (p : pattern) (t : str) (start : nat) (must_advance : bool) : option (nat * nat) :=
  scan p t must_advance start (length t - start).

(** [Pattern.search(text)]: the span of the match, or [None]. *)
Definition search (p : pattern) (t : str) : option (nat * nat) := search_from p t 0 false.

(** The loop of [Pattern.findall]: search from [start], keep the matched
    slice, go on from the end of the match, which must advance when the
    match was empty. *)
Fixpoint findall_loop (fuel : nat) (p : pattern) (t : str) (start : nat) (must_advance : bool) : list str :=
  match fuel with
  | O => []
  | S fuel' =>
      match search_from p t start must_advance with
      | None => []
      | Some (s, e) => slice t s e :: findall_loop fuel' p t e (e =? s)
      end
  end.

(** Each round moves the start forward or turns [must_advance] on. *)
Definition findall_fuel (t : str) : nat := 2 * length t + 2.

(** [Pattern.findall(text)] for a pattern without capturing groups. *)
Definition findall (p : pattern) (t : str) : list str :=
  findall_loop (findall_fuel t) p t 0 false.

(** ** The pattern tables *)

Definition lit (a : ascii) : regex := One (Lit (code a)).
Definition lits (s : string) : list regex := map lit (list_ascii_of_string s).
Definition ch (a : ascii) : set_item := Literal (code a).
Definition rng (a b : ascii) : set_item := Range (code a) (code b).

Definition plus (items : list set_item) : regex := Repeat 1 None (In items).
Definition at_least (n : nat) (items : list set_item) : regex := Repeat n None (In items).
Definition optional (a : atom) : regex := Repeat 0 (Some 1) a.

(** [\d{n}] and [[-.\s]?]. *)
Definition digits (n : nat) : regex := Repeat n (Some n) (In [Category CatDigit]).
Definition sep : regex := optional (In [ch "-"; ch "."; Category CatSpace]).

(** [[a-zA-Z0-9._%+-]+@[a-zA-Z0-9.-]+\.[a-zA-Z]{2,}], IGNORECASE. *)
Definition EMAIL_PATTERN : pattern :=
  Pattern
    (cat [plus [rng "a" "z"; rng "A" "Z"; rng "0" "9"; ch "."; ch "_"; ch "%"; ch "+"; ch "-"];
          lit "@";
          plus [rng "a" "z"; rng "A" "Z"; rng "0" "9"; ch "."; ch "-"];
          lit ".";
          at_least 2 [rng "a" "z"; rng "A" "Z"]])
    true.

Definition PHONE_PATTERNS : list pattern :=
  [ (* \+63[-.\s]?9\d{2}[-.\s]?\d{3}[-.\s]?\d{4} *)
    Pattern (cat (lits "+63" ++ [sep; lit "9"; digits 2; sep; digits 3; sep; digits 4])) false;
    (* \b09\d{2}[-.\s]?\d{3}[-.\s]?\d{4}\b *)
    Pattern (cat (AtBoundary :: lits "09" ++ [digits 2; sep; digits 3; sep; digits 4; AtBoundary])) false;
    (* \+63[-.\s]?2[-.\s]?\d{4}[-.\s]?\d{4} *)
    Pattern (cat (lits "+63" ++ [sep; lit "2"; sep; digits 4; sep; digits 4])) false;
    (* \+63[-.\s]?\d{2}[-.\s]?\d{3}[-.\s]?\d{4} *)
    Pattern (cat (lits "+63" ++ [sep; digits 2; sep; digits 3; sep; digits 4])) false;
    (* \(?\b02\)?[-.\s]?\d{4}[-.\s]?\d{4}\b *)
    Pattern (cat (optional (Lit (code "(")) :: AtBoundary :: lits "02" ++
                  [optional (Lit (code ")")); sep; digits 4; sep; digits 4; AtBoundary])) false;
    (* \(?\b0\d{2}\)?[-.\s]?\d{3}[-.\s]?\d{4}\b *)
    Pattern (cat [optional (Lit (code "(")); AtBoundary; lit "0"; digits 2;
                  optional (Lit (code ")")); sep; digits 3; sep; digits 4; AtBoundary]) false;
    (* \b09\d{9}\b *)
    Pattern (cat (AtBoundary :: lits "09" ++ [digits 9; AtBoundary])) false;
    (* \b\d{10,12}\b *)
    Pattern (cat [AtBoundary; Repeat 10 (Some 12) (In [Category CatDigit]); AtBoundary]) false ].

Definition handle_az09_ : list set_item := [rng "a" "z"; rng "A" "Z"; rng "0" "9"; ch "_"].

Definition SOCIAL_PATTERNS : list pattern :=
  [ (* (?:^|[\s(])@[a-zA-Z_][a-zA-Z0-9_]{0,14}\b *)
    Pattern (cat [Branch (cat [AtBeginning]) (cat [One (In [Category CatSpace; ch "("])]);
                  lit "@";
                  One (In [rng "a" "z"; rng "A" "Z"; ch "_"]);
                  Repeat 0 (Some 14) (In handle_az09_);
                  AtBoundary]) false;
    (* linkedin\.com/in/[a-zA-Z0-9_-]+ *)
    Pattern (cat (lits "linkedin.com/in/" ++ [plus (handle_az09_ ++ [ch "-"])])) true;
    (* github\.com/[a-zA-Z0-9_-]+ *)
    Pattern (cat (lits "github.com/" ++ [plus (handle_az09_ ++ [ch "-"])])) true;
    (* (?:twitter|x)\.com/[a-zA-Z0-9_]+ *)
    Pattern (cat (Branch (cat (lits "twitter")) (cat (lits "x")) :: lits ".com/" ++ [plus handle_az09_])) true;
    (* instagram\.com/[a-zA-Z0-9_.]+ *)
    Pattern (cat (lits "instagram.com/" ++ [plus (handle_az09_ ++ [ch "."])])) true;
    (* facebook\.com/[a-zA-Z0-9.]+ *)
    Pattern (cat (lits "facebook.com/" ++ [plus [rng "a" "z"; rng "A" "Z"; rng "0" "9"; ch "."]])) true;
    (* (?:t\.me|telegram\.me)/[a-zA-Z0-9_]+ *)
    Pattern (cat (Branch (cat (lits "t.me")) (cat (lits "telegram.me")) :: lits "/" ++ [plus handle_az09_])) true;
    (* wa\.me/\d+ *)
    Pattern (cat (lits "wa.me/" ++ [plus [Category CatDigit]])) true ].

(** ** Evaluation trace

    The calls made on compiled patterns, in the order they are made. *)

Inductive event :=
| Searched (p : pattern)
| FoundAll (p : pattern).

Definition Traced (A : Type) : Type := (A * list event)%type.

Definition value {A} (m : Traced A) : A := fst m.
Definition trace {A} (m : Traced A) : list event := snd m.

Definition ret {A} (x : A) : Traced A := (x, []).
Definition bind {A B} (m : Traced A) (f : A -> Traced B) : Traced B :=
  let r := f (fst m) in (fst r, snd m ++ snd r).

Notation "x <- m ;; k" := (bind m (fun x => k))
  (at level 100, m at next level, right associativity).

(** The truth value of [pattern.search(text)]: a match object is true,
    [None] is false. *)
Definition has_match (p : pattern) (t : str) : bool :=
  match search p t with
  | Some _ => true
  | None => false
  end.

Definition pattern_search (p : pattern) (t : str) : Traced bool :=
  (has_match p t, [Searched p]).

Definition pattern_findall (p : pattern) (t : str) : Traced (list str) :=
  (findall p t, [FoundAll p]).

(** ** The boolean check *)

(** [for pattern in ps: if pattern.search(text): return True]; the
    value tells whether the loop returned. *)
Fixpoint search_any (ps : list pattern) (t : str) : Traced bool :=
  match ps with
  | [] => ret false
  | p :: ps' =>
      hit <- pattern_search p t ;;
      if hit then ret true else search_any ps' t
  end.

(** The argument is [None] for Python's [None]. *)
Definition contains_contact_info (text : option str) : Traced bool :=
  match text with
  | None | Some [] => ret false
  | Some t =>
      hit <- pattern_search EMAIL_PATTERN t ;;
      if hit then ret true else
      hit <- search_any PHONE_PATTERNS t ;;
      if hit then ret true else
      hit <- search_any SOCIAL_PATTERNS t ;;
      if hit then ret true else
      ret false
  end.

(** ** The detailed report *)

Record DetectionResult := MkDetectionResult {
  has_contact_info : bool;
  details : gmap string (list str)
}.

(** [for pattern in ps: found[key].extend(pattern.findall(text))]. *)
Fixpoint extend_all (key : string) (ps : list pattern) (t : str)
    (found : gmap string (list str)) : Traced (gmap string (list str)) :=
  match ps with
  | [] => ret found
  | p :: ps' =>
      ms <- pattern_findall p t ;;
      extend_all key ps' t (alter (fun l => l ++ ms) key found)
  end.

(** [list(set(l))].  Python leaves the order of the result open; the
    order of [elements] stands for it and nothing below depends on it. *)
Definition list_set (l : list str) : list str := elements (list_to_set l : gset str).

(** [found[key] = list(set(found[key]))]. *)
Definition dedupe (key : string) (found : gmap string (list str)) : gmap string (list str) :=
  <[key := list_set (found !!! key)]> found.

(** Truth value of a list. *)
Definition truthy (l : list str) : bool := match l with [] => false | _ => true end.

Definition detect_contact_info (text : option str) : Traced DetectionResult :=
  match text with
  | None | Some [] => ret (MkDetectionResult false ∅)
  | Some t =>
      let found : gmap string (list str) :=
        <["social" := []]> (<["phones" := []]> (<["emails" := []]> ∅)) in
      emails <- pattern_findall EMAIL_PATTERN t ;;
      let found := <["emails" := emails]> found in
      found <- extend_all "phones" PHONE_PATTERNS t found ;;
      let found := dedupe "phones" found in
      found <- extend_all "social" SOCIAL_PATTERNS t found ;;
      let found := dedupe "social" found in
      let has_contact :=
        truthy (found !!! "emails") || truthy (found !!! "phones") || truthy (found !!! "social") in
      ret (MkDetectionResult has_contact found)
  end.

(** [check(text)]. *)
Definition check (text : option str) : Traced bool := contains_contact_info text.

(** ** Static checks on a pattern

    Syntactic conditions under which a match of a pattern, cut out of its
    text, is still a match: the match is not empty, and a word boundary
    tested at one of its ends has a word character of the match next to
    it. *)

(** The pattern can match the empty string. *)

Fixpoint nullable (r : regex) : bool :=
  match r with
  | One _ => false
  | Repeat lo _ _ => lo =? 0
  | AtBeginning | AtBoundary | Empty => true
  | Branch r1 r2 => nullable r1 || nullable r2
  | Seq r1 r2 => nullable r1 && nullable r2
  end.

(** A set item, respectively an atom, that accepts word characters
    only.  Case-insensitive atoms are left out: no pattern of the module
    combines IGNORECASE with a word boundary. *)
Definition item_word (it : set_item) : bool :=
  match it with
  | Literal a => is_word a
  | Range lo hi => forallb is_word (range_list lo hi)
  | Category CatDigit => true
  | Category CatSpace => false
  end.

Definition atom_word (ic : bool) (a : atom) : bool :=
  negb ic &&
  match a with
  | Lit x => is_word x
  | In items => forallb item_word items
  end.

(** Matches consume nothing. *)
Fixpoint zero_width (r : regex) : bool :=
  match r with
  | AtBeginning | AtBoundary | Empty => true
  | One _ | Repeat _ _ _ => false
  | Branch r1 r2 | Seq r1 r2 => zero_width r1 && zero_width r2
  end.

(** Every match begins with a word character. *)
Fixpoint starts_word (ic : bool) (r : regex) : bool :=
  match r with
  | One a => atom_word ic a
  | Repeat lo _ a => (1 <=? lo) && atom_word ic a
  | AtBeginning | AtBoundary | Empty => false
  | Branch r1 r2 => starts_word ic r1 && starts_word ic r2
  | Seq r1 r2 => starts_word ic r1 || (zero_width r1 && starts_word ic r2)
  end.

(** Every match is empty or ends with a word character. *)
Fixpoint word_or_empty (ic : bool) (r : regex) : bool :=
  match r with
  | One a | Repeat _ _ a => atom_word ic a
  | AtBeginning | AtBoundary | Empty => true
  | Branch r1 r2 | Seq r1 r2 => word_or_empty ic r1 && word_or_empty ic r2
  end.

(** Every match ends with a word character. *)
Fixpoint ends_word (ic : bool) (r : regex) : bool :=
  match r with
  | One a => atom_word ic a
  | Repeat lo _ a => (1 <=? lo) && atom_word ic a
  | AtBeginning | AtBoundary | Empty => false
  | Branch r1 r2 => ends_word ic r1 && ends_word ic r2
  | Seq r1 r2 => ends_word ic r2 || (ends_word ic r1 && word_or_empty ic r2)
  end.

(** A word boundary tested where the match begins, respectively ends,
    has a word character of the match next to it. *)
Fixpoint first_safe (ic : bool) (r : regex) : bool :=
  starts_word ic r ||
  match r with
  | AtBoundary => false
  | One _ | Repeat _ _ _ | AtBeginning | Empty => true
  | Branch r1 r2 | Seq r1 r2 => first_safe ic r1 && first_safe ic r2
  end.

Fixpoint last_safe (ic : bool) (r : regex) : bool :=
  ends_word ic r ||
  match r with
  | AtBoundary => false
  | One _ | Repeat _ _ _ | AtBeginning | Empty => true
  | Branch r1 r2 | Seq r1 r2 => last_safe ic r1 && last_safe ic r2
  end.

(** The matches of the pattern are not empty and carry with them the
    characters that their boundary tests look at. *)
Definition self_contained (p : pattern) : bool :=
  negb (nullable (pat_regex p)) &&
  first_safe (pat_ignorecase p) (pat_regex p) &&
  last_safe (pat_ignorecase p) (pat_regex p).

(** The patterns of a category of the report. *)
Definition category_patterns (key : string) : list pattern :=
  if decide (key = "emails") then [EMAIL_PATTERN]
  else if decide (key = "phones") then PHONE_PATTERNS
  else if decide (key = "social") then SOCIAL_PATTERNS
  else [].

(** Everything the patterns of a list find in a text, list after list. *)
Definition all_matches (ps : list pattern) (t : str) : list str :=
  ps ≫= fun p => findall p t.

(** The report on a text that is not empty. *)
Definition report (t : str) : gmap string (list str) :=
  <["social" := list_set (all_matches SOCIAL_PATTERNS t)]>
    (<["phones" := list_set (all_matches PHONE_PATTERNS t)]>
       (<["emails" := findall EMAIL_PATTERN t]> ∅)).

(** [m] occurs in [t] as a run of consecutive characters. *)
Definition substring (m t : str) : Prop := exists pre post, t = pre ++ m ++ post.

(** ** Further static facts about a pattern *)

(** The least number of characters in a match, and the greatest when
    there is one. *)
Fixpoint min_len (r : regex) : nat :=
  match r with
  | One _ => 1
  | Repeat lo _ _ => lo
  | AtBeginning | AtBoundary | Empty => 0
  | Branch r1 r2 => min (min_len r1) (min_len r2)
  | Seq r1 r2 => min_len r1 + min_len r2
  end.

Fixpoint max_len (r : regex) : option nat :=
  match r with
  | One _ => Some 1
  | Repeat _ hi _ => hi
  | AtBeginning | AtBoundary | Empty => Some 0
  | Branch r1 r2 =>
      match max_len r1, max_len r2 with
      | Some n1, Some n2 => Some (max n1 n2)
      | _, _ => None
      end
  | Seq r1 r2 =>
      match max_len r1, max_len r2 with
      | Some n1, Some n2 => Some (n1 + n2)
      | _, _ => None
      end
  end.

(** The lengths of all matches of the pattern lie between [lo] and [hi]. *)
Definition length_within (lo : nat) (hi : option nat) (p : pattern) : bool :=
  (lo <=? min_len (pat_regex p)) &&
  match hi, max_len (pat_regex p) with
  | None, _ => true
  | Some h, Some n => n <=? h
  | Some _, None => false
  end.

(** The pattern tests nothing about the text around the match. *)
Fixpoint context_free (r : regex) : bool :=
  match r with
  | AtBeginning | AtBoundary => false
  | One _ | Repeat _ _ _ | Empty => true
  | Branch r1 r2 | Seq r1 r2 => context_free r1 && context_free r2
  end.

(** The characters without which nothing is found: ['@'], ['/'] and the
    decimal digits. *)
Definition telltale (c : N) : bool := (c =? 64)%N || (c =? 47)%N || is_decimal c.

Definition item_telltale (it : set_item) : bool :=
  match it with
  | Literal a => telltale a
  | Range lo hi => forallb telltale (range_list lo hi)
  | Category CatDigit => true
  | Category CatSpace => false
  end.

(** The atom accepts telltale characters only. *)
Definition atom_telltale (ic : bool) (a : atom) : bool :=
  match a with
  | Lit x => negb (ic && iscased x) && telltale x
  | In items => negb (ic && hascased items) && forallb item_telltale items
  end.

(** Every match contains a telltale character. *)
Fixpoint needs_telltale (ic : bool) (r : regex) : bool :=
  match r with
  | One a => atom_telltale ic a
  | Repeat lo _ a => (1 <=? lo) && atom_telltale ic a
  | AtBeginning | AtBoundary | Empty => false
  | Branch r1 r2 => needs_telltale ic r1 && needs_telltale ic r2
  | Seq r1 r2 => needs_telltale ic r1 || needs_telltale ic r2
  end.

(** The number of decimal digits in a text. *)
Definition count_decimal (l : str) : nat := length (List.filter is_decimal l).

Definition item_decimal (it : set_item) : bool :=
  match it with
  | Literal a => is_decimal a
  | Range lo hi => forallb is_decimal (range_list lo hi)
  | Category CatDigit => true
  | Category CatSpace => false
  end.

(** The atom accepts decimal digits only. *)
Definition atom_decimal (ic : bool) (a : atom) : bool :=
  match a with
  | Lit x => negb (ic && iscased x) && is_decimal x
  | In items => negb (ic && hascased items) && forallb item_decimal items
  end.

(** A number of decimal digits that every match contains. *)
Fixpoint min_digits (ic : bool) (r : regex) : nat :=
  match r with
  | One a => if atom_decimal ic a then 1 else 0
  | Repeat lo _ a => if atom_decimal ic a then lo else 0
  | AtBeginning | AtBoundary | Empty => 0
  | Branch r1 r2 => min (min_digits ic r1) (min_digits ic r2)
  | Seq r1 r2 => min_digits ic r1 + min_digits ic r2
  end.

(** How often the character [x] occurs in a text. *)
Definition occurrences (x : N) (l : str) : nat := length (List.filter (N.eqb x) l).

(** The atom accepts [x] and nothing else. *)
Definition atom_only (ic : bool) (x : N) (a : atom) : bool :=
  match a with
  | Lit y => negb (ic && iscased y) && (y =? x)%N
  | In _ => false
  end.

(** Bounds on the number of occurrences of [x] in a match: at least the
    first component and, when the second is given, at most that. *)
Fixpoint occurrence_bounds (ic : bool) (x : N) (r : regex) : nat * option nat :=
  match r with
  | One a =>
      if atom_match ic a x then ((if atom_only ic x a then 1 else 0), Some 1)
      else (0, Some 0)
  | Repeat _ hi a => if atom_match ic a x then (0, hi) else (0, Some 0)
  | AtBeginning | AtBoundary | Empty => (0, Some 0)
  | Branch r1 r2 =>
      let (lo1, hi1) := occurrence_bounds ic x r1 in
      let (lo2, hi2) := occurrence_bounds ic x r2 in
      (min lo1 lo2,
       match hi1, hi2 with Some n1, Some n2 => Some (max n1 n2) | _, _ => None end)
  | Seq r1 r2 =>
      let (lo1, hi1) := occurrence_bounds ic x r1 in
      let (lo2, hi2) := occurrence_bounds ic x r2 in
      (lo1 + lo2,
       match hi1, hi2 with Some n1, Some n2 => Some (n1 + n2) | _, _ => None end)
  end.

(** Two characters that are equal or are the two cases of one ASCII letter. *)
Definition ascii_lower (c : N) : N := if ascii_upper_letter c then (c + 32)%N else c.

Definition case_variant (c d : N) : bool :=
  (c =? d)%N || (ascii_letter c && ascii_letter d && (ascii_lower c =? ascii_lower d)%N).

(** Two texts that differ in the case of ASCII letters only. *)
Definition case_variants (t t' : str) : Prop :=
  Forall2 (fun c d => case_variant c d = true) t t'.

(** The atom treats the two cases of every ASCII letter alike. *)
Definition atom_case_blind (ic : bool) (a : atom) : bool :=
  forallb (fun l => eqb (atom_match ic a l) (atom_match ic a (l - 32)%N)) (range_list 97 122).

Fixpoint case_blind (ic : bool) (r : regex) : bool :=
  match r with
  | One a | Repeat _ _ a => atom_case_blind ic a
  | AtBeginning | AtBoundary | Empty => true
  | Branch r1 r2 | Seq r1 r2 => case_blind ic r1 && case_blind ic r2
  end.

(** The gaps and the matches of a text put together again:
    [g0 ++ m1 ++ g1 ++ ... ++ mn ++ gn]. *)
Fixpoint interleave (gaps : list str) (ms : list str) : str :=
  match gaps, ms with
  | g :: gaps', m :: ms' => g ++ m ++ interleave gaps' ms'
  | g :: _, [] => g
  | [], _ => []
  end.

(** ** Slices *)

Lemma lookup_slice (t : str) (s e k : nat) :
  slice t s e !! k = if decide (k < e - s) then t !! (s + k) else None.
Proof.
  unfold slice. case_decide.
  - by rewrite lookup_take_lt, lookup_drop.
  - apply lookup_take_ge. lia.
Qed.

Lemma length_slice (t : str) (s e : nat) :
  e <= length t -> length (slice t s e) = e - s.
Proof. intros He. unfold slice. rewrite length_take, length_drop. lia. Qed.

Lemma slice_middle (t : str) (s e : nat) :
  s <= e -> e <= length t -> t = take s t ++ slice t s e ++ drop e t.
Proof.
  intros Hse He. unfold slice.
  replace (drop e t) with (drop (e - s) (drop s t)).
  - by rewrite take_drop, take_drop.
  - rewrite drop_drop. f_equal. lia.
Qed.

Lemma slice_substring (t : str) (s e : nat) :
  s <= e -> e <= length t -> substring (slice t s e) t.
Proof. intros Hse He. exists (take s t), (drop e t). by apply slice_middle. Qed.

(** ** The matcher *)

Section Matcher.

Variable ic : bool.

Lemma count_le_length (a : atom) (l : str) : count ic a l <= length l.
Proof. induction l as [|c l IH]; simpl; [lia|]. destruct (atom_match ic a c); simpl; lia. Qed.

Lemma count_take (a : atom) (k : nat) :
  forall l l' : str, take k l = take k l' -> k <= count ic a l -> k <= count ic a l'.
Proof.
  induction k as [|k IH]; intros l l' Heq Hk; [lia|].
  destruct l as [|c l]; simpl in Hk; [lia|].
  destruct l' as [|c' l']; simpl in Heq; [discriminate|].
  injection Heq as -> Heq. simpl.
  destruct (atom_match ic a c'); [|lia].
  specialize (IH l l' Heq). lia.
Qed.

Lemma count_lookup (a : atom) (l : str) (k : nat) :
  k < count ic a l -> exists c, l !! k = Some c /\ atom_match ic a c = true.
Proof.
  revert k. induction l as [|c l IH]; intros k Hk; simpl in Hk; [lia|].
  destruct (atom_match ic a c) eqn:Hc; [|lia].
  destruct k as [|k]; [by exists c|].
  apply IH. lia.
Qed.

Lemma length_window (t : str) (i : nat) (hi : option nat) :
  length (window t i hi) <= length t - i.
Proof. destruct hi; simpl; rewrite ?length_take, length_drop; lia. Qed.

Lemma elem_of_countdown (lo n k : nat) : k ∈ countdown lo n <-> lo <= k <= n.
Proof. unfold countdown. rewrite elem_of_reverse, elem_of_seq. lia. Qed.

Lemma elem_of_ends_repeat (t : str) (lo : nat) (hi : option nat) (a : atom) (i j : nat) :
  j ∈ ends ic t (Repeat lo hi a) i <->
  exists k, j = i + k /\ lo <= k <= count ic a (window t i hi).
Proof.
  simpl. destruct (Nat.ltb_spec (count ic a (window t i hi)) lo) as [Hlt|Hge].
  - split; [by intros ?%not_elem_of_nil|]. intros (k & _ & Hk). lia.
  - rewrite list_elem_of_fmap. by setoid_rewrite elem_of_countdown.
Qed.

Lemma elem_of_ends_one (t : str) (a : atom) (i j : nat) :
  j ∈ ends ic t (One a) i <->
  exists c, t !! i = Some c /\ atom_match ic a c = true /\ j = S i.
Proof.
  simpl. destruct (t !! i) as [c|]; [destruct (atom_match ic a c) eqn:Hc|].
  - rewrite list_elem_of_singleton. split.
    + intros ->. by exists c.
    + by intros (? & _ & _ & ->).
  - split; [by intros ?%not_elem_of_nil|]. intros (c' & Hc' & Hm & _). congruence.
  - split; [by intros ?%not_elem_of_nil|]. intros (c' & Hc' & _). congruence.
Qed.

Lemma elem_of_ends_seq (t : str) (r1 r2 : regex) (i j : nat) :
  j ∈ ends ic t (Seq r1 r2) i <-> exists k, k ∈ ends ic t r1 i /\ j ∈ ends ic t r2 k.
Proof.
  simpl. rewrite list_elem_of_bind. split; intros (k & H1 & H2); by exists k.
Qed.

(** A match moves forward and stays inside the text. *)
Lemma ends_forward (t : str) (r : regex) :
  forall i j, j ∈ ends ic t r i -> i <= j.
Proof.
  induction r as [a|lo hi a| | |r1 IH1 r2 IH2|r1 IH1 r2 IH2|]; intros i j Hj.
  - apply elem_of_ends_one in Hj as (c & _ & _ & ->). lia.
  - apply elem_of_ends_repeat in Hj as (k & -> & Hk). lia.
  - simpl in Hj. destruct (i =? 0); [|by apply not_elem_of_nil in Hj].
    apply list_elem_of_singleton in Hj. lia.
  - simpl in Hj. destruct (at_boundary t i); [|by apply not_elem_of_nil in Hj].
    apply list_elem_of_singleton in Hj. lia.
  - simpl in Hj. apply elem_of_app in Hj as [Hj|Hj]; eauto.
  - apply elem_of_ends_seq in Hj as (k & Hk & Hj).
    specialize (IH1 _ _ Hk). specialize (IH2 _ _ Hj). lia.
  - simpl in Hj. apply list_elem_of_singleton in Hj. lia.
Qed.

Lemma ends_inside (t : str) (r : regex) :
  forall i j, j ∈ ends ic t r i -> i <= length t -> j <= length t.
Proof.
  induction r as [a|lo hi a| | |r1 IH1 r2 IH2|r1 IH1 r2 IH2|]; intros i j Hj Hi.
  - apply elem_of_ends_one in Hj as (c & Hc & _ & ->).
    apply lookup_lt_Some in Hc. lia.
  - apply elem_of_ends_repeat in Hj as (k & -> & Hk).
    pose proof (count_le_length a (window t i hi)).
    pose proof (length_window t i hi). lia.
  - simpl in Hj. destruct (i =? 0); [|by apply not_elem_of_nil in Hj].
    apply list_elem_of_singleton in Hj. lia.
  - simpl in Hj. destruct (at_boundary t i); [|by apply not_elem_of_nil in Hj].
    apply list_elem_of_singleton in Hj. lia.
  - simpl in Hj. apply elem_of_app in Hj as [Hj|Hj]; eauto.
  - apply elem_of_ends_seq in Hj as (k & Hk & Hj). eauto.
  - simpl in Hj. apply list_elem_of_singleton in Hj. lia.
Qed.

(** Only a nullable pattern has an empty match. *)
Lemma empty_match_nullable (t : str) (r : regex) :
  forall i, i ∈ ends ic t r i -> nullable r = true.
Proof.
  induction r as [a|lo hi a| | |r1 IH1 r2 IH2|r1 IH1 r2 IH2|]; intros i Hi; simpl; try done.
  - apply elem_of_ends_one in Hi as (c & _ & _ & Hi). lia.
  - apply elem_of_ends_repeat in Hi as (k & Hk & Hlo). apply Nat.eqb_eq. lia.
  - simpl in Hi. apply elem_of_app in Hi as [Hi|Hi]; apply orb_true_iff; eauto.
  - apply elem_of_ends_seq in Hi as (k & Hk & Hi).
    pose proof (ends_forward _ _ _ _ Hk). pose proof (ends_forward _ _ _ _ Hi).
    assert (k = i) as -> by lia.
    apply andb_true_iff. eauto.
Qed.

Lemma lookup_window (t : str) (i n : nat) (hi : option nat) (c : N) :
  window t i hi !! n = Some c -> t !! (i + n) = Some c.
Proof.
  destruct hi as [h|]; simpl.
  - rewrite lookup_take. case_decide; [|done]. by rewrite lookup_drop.
  - by rewrite lookup_drop.
Qed.

Lemma elem_of_range_list (lo hi c : N) : between lo hi c = true -> c ∈ range_list lo hi.
Proof.
  unfold between, range_list. intros [Hlo Hhi]%andb_true_iff.
  apply N.leb_le in Hlo. apply N.leb_le in Hhi.
  apply list_elem_of_fmap. exists (N.to_nat c). split; [by rewrite N2Nat.id|].
  apply elem_of_seq. lia.
Qed.

Lemma is_decimal_word (c : N) : is_decimal c = true -> is_word c = true.
Proof.
  intros Hc. unfold is_word, is_alnum. rewrite Hc.
  by rewrite orb_true_r.
Qed.

Lemma item_word_sound (it : set_item) (c : N) :
  item_word it = true -> item_match it c = true -> is_word c = true.
Proof.
  destruct it as [a|lo hi|[|]]; simpl; intros Hw Hm; try done.
  - by apply N.eqb_eq in Hm as ->.
  - apply elem_of_range_list, list_elem_of_In in Hm.
    rewrite forallb_forall in Hw. by apply Hw.
  - by apply is_decimal_word.
Qed.

Lemma atom_word_sound (a : atom) (c : N) :
  atom_word ic a = true -> atom_match ic a c = true -> is_word c = true.
Proof.
  unfold atom_word. destruct ic; [done|]. simpl.
  destruct a as [x|items]; simpl; intros Hw Hm.
  - by apply N.eqb_eq in Hm as ->.
  - apply existsb_exists in Hm as (it & Hit & Hm).
    rewrite forallb_forall in Hw. eapply item_word_sound; eauto.
Qed.

Lemma zero_width_sound (t : str) (r : regex) :
  zero_width r = true -> forall i j, j ∈ ends ic t r i -> j = i.
Proof.
  induction r as [a|lo hi a| | |r1 IH1 r2 IH2|r1 IH1 r2 IH2|]; intros Hz i j Hj;
    simpl in Hz, Hj; try done.
  - destruct (i =? 0); [|by apply not_elem_of_nil in Hj]. by apply list_elem_of_singleton in Hj.
  - destruct (at_boundary t i); [|by apply not_elem_of_nil in Hj].
    by apply list_elem_of_singleton in Hj.
  - apply andb_true_iff in Hz as [Hz1 Hz2]. apply elem_of_app in Hj as [Hj|Hj]; eauto.
  - apply andb_true_iff in Hz as [Hz1 Hz2].
    apply list_elem_of_bind in Hj as (k & Hj & Hk).
    rewrite (IH2 Hz2 _ _ Hj). eauto.
  - by apply list_elem_of_singleton in Hj.
Qed.

Lemma repeat_char (t : str) (lo : nat) (hi : option nat) (a : atom) (i j n : nat) :
  j ∈ ends ic t (Repeat lo hi a) i -> i <= n < j ->
  exists c, t !! n = Some c /\ atom_match ic a c = true.
Proof.
  intros (k & -> & Hk)%elem_of_ends_repeat Hn.
  destruct (count_lookup a (window t i hi) (n - i)) as (c & Hc & Hm); [lia|].
  exists c. split; [|done].
  apply lookup_window in Hc. rewrite <- Hc. f_equal. lia.
Qed.

Lemma word_at_atom (t : str) (a : atom) (n : nat) (c : N) :
  atom_word ic a = true -> t !! n = Some c -> atom_match ic a c = true ->
  word_at t n = true.
Proof. intros Hw Hc Hm. unfold word_at. rewrite Hc. eauto using atom_word_sound. Qed.

Lemma repeat_positive (lo : nat) (b : bool) : (1 <=? lo) && b = true -> 1 <= lo /\ b = true.
Proof. intros [Hlo%Nat.leb_le Hb]%andb_true_iff. done. Qed.

Lemma starts_word_sound (t : str) (r : regex) :
  starts_word ic r = true -> forall i j, j ∈ ends ic t r i -> word_at t i = true.
Proof.
  induction r as [a|lo hi a| | |r1 IH1 r2 IH2|r1 IH1 r2 IH2|]; intros Hw i j Hj;
    cbn [starts_word] in Hw; try done.
  - apply elem_of_ends_one in Hj as (c & Hc & Hm & _). eauto using word_at_atom.
  - apply repeat_positive in Hw as [Hlo Hw].
    destruct (repeat_char t lo hi a i j i Hj) as (c & Hc & Hm); [|eauto using word_at_atom].
    apply elem_of_ends_repeat in Hj as (k & -> & Hk). lia.
  - apply andb_true_iff in Hw as [Hw1 Hw2]. apply elem_of_app in Hj as [Hj|Hj]; eauto.
  - apply elem_of_ends_seq in Hj as (k & Hk & Hj).
    apply orb_true_iff in Hw as [Hw|[Hz Hw]%andb_true_iff]; [eauto|].
    rewrite <- (zero_width_sound t r1 Hz _ _ Hk). eauto.
Qed.

Lemma word_or_empty_sound (t : str) (r : regex) :
  word_or_empty ic r = true ->
  forall i j, j ∈ ends ic t r i -> j = i \/ word_at t (j - 1) = true.
Proof.
  induction r as [a|lo hi a| | |r1 IH1 r2 IH2|r1 IH1 r2 IH2|]; intros Hw i j Hj;
    cbn [word_or_empty] in Hw.
  - apply elem_of_ends_one in Hj as (c & Hc & Hm & ->). right.
    replace (S i - 1) with i by lia. eauto using word_at_atom.
  - destruct (decide (j = i)) as [|Hne]; [by left|right].
    pose proof (ends_forward _ _ _ _ Hj).
    destruct (repeat_char t lo hi a i j (j - 1) Hj) as (c & Hc & Hm); [lia|].
    eauto using word_at_atom.
  - left. by apply (zero_width_sound t AtBeginning).
  - left. by apply (zero_width_sound t AtBoundary).
  - apply andb_true_iff in Hw as [Hw1 Hw2]. apply elem_of_app in Hj as [Hj|Hj]; eauto.
  - apply andb_true_iff in Hw as [Hw1 Hw2].
    apply elem_of_ends_seq in Hj as (k & Hk & Hj).
    destruct (IH2 Hw2 _ _ Hj) as [->|]; [|by right]. eauto.
  - left. by apply (zero_width_sound t Empty).
Qed.

Lemma ends_word_sound (t : str) (r : regex) :
  ends_word ic r = true -> forall i j, j ∈ ends ic t r i -> word_at t (j - 1) = true.
Proof.
  induction r as [a|lo hi a| | |r1 IH1 r2 IH2|r1 IH1 r2 IH2|]; intros Hw i j Hj;
    cbn [ends_word] in Hw; try done.
  - apply elem_of_ends_one in Hj as (c & Hc & Hm & ->).
    replace (S i - 1) with i by lia. eauto using word_at_atom.
  - apply repeat_positive in Hw as [Hlo Hw].
    destruct (repeat_char t lo hi a i j (j - 1) Hj) as (c & Hc & Hm); [|eauto using word_at_atom].
    apply elem_of_ends_repeat in Hj as (k & -> & Hk). lia.
  - apply andb_true_iff in Hw as [Hw1 Hw2]. apply elem_of_app in Hj as [Hj|Hj]; eauto.
  - apply elem_of_ends_seq in Hj as (k & Hk & Hj).
    apply orb_true_iff in Hw as [Hw|[Hw1 Hw2]%andb_true_iff]; [eauto|].
    destruct (word_or_empty_sound t r2 Hw2 _ _ Hj) as [->|]; eauto.
Qed.

End Matcher.

(** ** A match taken out of its text

    The slice [t[s:e]] of a text, [s < e], read as a text of its own. *)

Section Rematch.

Variable ic : bool.
Variables (t : str) (s e : nat).
Hypothesis Hse : s < e.
Hypothesis He : e <= length t.

Lemma word_at_slice (k : nat) : k < e - s -> word_at (slice t s e) k = word_at t (s + k).
Proof. intros Hk. unfold word_at. rewrite lookup_slice. by rewrite decide_True. Qed.

Lemma word_at_slice_end : word_at (slice t s e) (e - s) = false.
Proof. unfold word_at. rewrite lookup_slice. rewrite decide_False; [done|lia]. Qed.

Lemma at_boundary_inner (i : nat) :
  s < i < e -> at_boundary (slice t s e) (i - s) = at_boundary t i.
Proof.
  intros Hi. destruct i as [|i]; [lia|].
  replace (S i - s) with (S (i - s)) by lia. unfold at_boundary.
  rewrite !word_at_slice by lia. repeat f_equal; lia.
Qed.

Lemma at_boundary_left : at_boundary (slice t s e) 0 = word_at t s.
Proof.
  unfold at_boundary. rewrite word_at_slice by lia.
  rewrite Nat.add_0_r. apply xorb_false_r.
Qed.

Lemma at_boundary_right : at_boundary (slice t s e) (e - s) = word_at t (e - 1).
Proof.
  unfold at_boundary. destruct (e - s) as [|k] eqn:Hk; [lia|].
  rewrite <- Hk at 1. rewrite word_at_slice_end, word_at_slice by lia.
  rewrite xorb_false_l. f_equal. lia.
Qed.

Lemma take_drop_slice (i k : nat) :
  s <= i -> i + k <= e -> take k (drop (i - s) (slice t s e)) = take k (drop i t).
Proof.
  intros Hi Hk. apply list_eq. intros n.
  rewrite !lookup_take. case_decide; [|done].
  rewrite !lookup_drop, lookup_slice. rewrite decide_True by lia.
  f_equal. lia.
Qed.

Lemma take_window_slice (i k : nat) (hi : option nat) :
  s <= i -> i + k <= e ->
  take k (window (slice t s e) (i - s) hi) = take k (window t i hi).
Proof.
  intros Hi Hk. destruct hi as [h|]; simpl.
  - rewrite !take_take. apply take_drop_slice; lia.
  - by apply take_drop_slice.
Qed.

(** A match that lies inside the slice is a match of the slice, provided
    the boundary tests made at the two ends of the slice see a word
    character inside it. *)
Lemma ends_slice (r : regex) :
  forall i j,
    j ∈ ends ic t r i -> s <= i -> j <= e ->
    (i = s -> first_safe ic r = true \/ word_at t s = true) ->
    (j = e -> last_safe ic r = true \/ word_at t (e - 1) = true) ->
    j - s ∈ ends ic (slice t s e) r (i - s).
Proof.
  induction r as [a|lo hi a| | |r1 IH1 r2 IH2|r1 IH1 r2 IH2|];
    intros i j Hj Hi Hje Hfirst Hlast.
  - apply elem_of_ends_one in Hj as (c & Hc & Hm & ->).
    apply elem_of_ends_one. exists c. split_and!; [|done|lia].
    rewrite lookup_slice, decide_True by lia. rewrite <- Hc. f_equal. lia.
  - apply elem_of_ends_repeat in Hj as (k & -> & Hlo & Hk).
    apply elem_of_ends_repeat. exists k. split_and!; [lia|done|].
    apply (count_take ic a k (window t i hi)); [|done].
    symmetry. apply take_window_slice; lia.
  - simpl in *. destruct (Nat.eqb_spec i 0) as [->|]; [|by apply not_elem_of_nil in Hj].
    apply list_elem_of_singleton in Hj as ->. simpl. apply list_elem_of_singleton. lia.
  - simpl in Hj. destruct (at_boundary t i) eqn:Hb; [|by apply not_elem_of_nil in Hj].
    apply list_elem_of_singleton in Hj as ->. simpl.
    assert (at_boundary (slice t s e) (i - s) = true) as ->; [|by apply list_elem_of_singleton].
    destruct (decide (i = s)) as [->|]; [|destruct (decide (i = e)) as [->|]].
    + rewrite Nat.sub_diag, at_boundary_left. by destruct Hfirst.
    + rewrite at_boundary_right. by destruct Hlast.
    + rewrite at_boundary_inner by lia. done.
  - pose proof Hj as Hj0. simpl in Hj. simpl ends.
    apply elem_of_app. apply elem_of_app in Hj as [Hj|Hj]; [left; apply IH1|right; apply IH2];
      try done.
    + intros ->. destruct Hfirst as [Hs|]; [done| |by right].
      simpl in Hs. apply orb_true_iff in Hs as [Hs|[? ?]%andb_true_iff]; [|by left].
      right. eapply (starts_word_sound ic t (Branch r1 r2)); eauto.
    + intros ->. destruct Hlast as [Hs|]; [done| |by right].
      simpl in Hs. apply orb_true_iff in Hs as [Hs|[? ?]%andb_true_iff]; [|by left].
      right. eapply (ends_word_sound ic t (Branch r1 r2)); eauto.
    + intros ->. destruct Hfirst as [Hs|]; [done| |by right].
      simpl in Hs. apply orb_true_iff in Hs as [Hs|[? ?]%andb_true_iff]; [|by left].
      right. eapply (starts_word_sound ic t (Branch r1 r2)); eauto.
    + intros ->. destruct Hlast as [Hs|]; [done| |by right].
      simpl in Hs. apply orb_true_iff in Hs as [Hs|[? ?]%andb_true_iff]; [|by left].
      right. eapply (ends_word_sound ic t (Branch r1 r2)); eauto.
  - pose proof Hj as Hj0.
    apply elem_of_ends_seq in Hj as (k & Hk & Hj). apply elem_of_ends_seq.
    pose proof (ends_forward _ _ _ _ _ Hk). pose proof (ends_forward _ _ _ _ _ Hj).
    exists (k - s). split.
    + apply IH1; [done|done|lia| |].
      * intros ->. destruct Hfirst as [Hs|]; [done| |by right].
        simpl in Hs. apply orb_true_iff in Hs as [Hs|[? ?]%andb_true_iff]; [|by left].
        right. eapply (starts_word_sound ic t (Seq r1 r2)); eauto.
      * intros ->. assert (j = e) as -> by lia.
        destruct Hlast as [Hs|]; [done| |by right].
        simpl in Hs. apply orb_true_iff in Hs as [Hs|[? ?]%andb_true_iff]; [|by left].
        right. eapply (ends_word_sound ic t (Seq r1 r2)); eauto.
    + apply IH2; [done|lia|done| |].
      * intros ->. assert (i = s) as -> by lia.
        destruct Hfirst as [Hs|]; [done| |by right].
        simpl in Hs. apply orb_true_iff in Hs as [Hs|[? ?]%andb_true_iff]; [|by left].
        right. eapply (starts_word_sound ic t (Seq r1 r2)); eauto.
      * intros ->. destruct Hlast as [Hs|]; [done| |by right].
        simpl in Hs. apply orb_true_iff in Hs as [Hs|[? ?]%andb_true_iff]; [|by left].
        right. eapply (ends_word_sound ic t (Seq r1 r2)); eauto.
  - simpl in *. apply list_elem_of_singleton in Hj as ->. by apply list_elem_of_singleton.
Qed.

End Rematch.

(** ** Searching *)

Section Search.

Variables (p : pattern) (t : str).

Lemma match_at_Some (i e : nat) (adv : bool) :
  match_at p t i adv = Some e ->
  e ∈ ends (pat_ignorecase p) t (pat_regex p) i /\ (adv = true -> e <> i).
Proof.
  unfold match_at. intros [Hin Hok]%find_some. split; [by apply list_elem_of_In|].
  intros -> ->. by rewrite Nat.eqb_refl in Hok.
Qed.

Lemma match_at_first (i e : nat) :
  e ∈ ends (pat_ignorecase p) t (pat_regex p) i -> is_Some (match_at p t i false).
Proof.
  unfold match_at. intros Hin.
  destruct (ends (pat_ignorecase p) t (pat_regex p) i) as [|x l]; [by apply not_elem_of_nil in Hin|].
  by exists x.
Qed.

Lemma scan_Some (left : nat) :
  forall (adv : bool) (i s e : nat),
    scan p t adv i left = Some (s, e) ->
    i <= s <= i + left /\ e ∈ ends (pat_ignorecase p) t (pat_regex p) s /\
    (adv = true -> s = i -> e <> s).
Proof.
  induction left as [|left IH]; intros adv i s e; simpl;
    destruct (match_at p t i adv) as [e'|] eqn:Hm.
  - intros [= <- <-]. apply match_at_Some in Hm as [? ?]. split_and!; [lia|lia|done|auto].
  - done.
  - intros [= <- <-]. apply match_at_Some in Hm as [? ?]. split_and!; [lia|lia|done|auto].
  - intros (? & ? & _)%IH. split_and!; [lia|lia|done|lia].
Qed.

Lemma search_from_Some (start s e : nat) (adv : bool) :
  search_from p t start adv = Some (s, e) -> start <= length t ->
  start <= s /\ s <= e /\ e <= length t /\
  e ∈ ends (pat_ignorecase p) t (pat_regex p) s /\ (adv = true -> s = start -> e <> s).
Proof.
  unfold search_from. intros (Hs & He & Hadv)%scan_Some Hstart.
  pose proof (ends_forward _ _ _ _ _ He).
  assert (s <= length t) by lia.
  pose proof (ends_inside _ _ _ _ _ He). split_and!; auto. lia.
Qed.

(** A match at the very start of the text is found by [search]. *)
Lemma search_first (e : nat) :
  e ∈ ends (pat_ignorecase p) t (pat_regex p) 0 -> is_Some (search p t).
Proof.
  intros [x Hx]%match_at_first. unfold search, search_from.
  destruct (length t - 0); simpl; rewrite Hx; by eexists.
Qed.

(** *** [findall] *)

Lemma findall_loop_elem (fuel : nat) :
  forall (start : nat) (adv : bool) (m : str),
    m ∈ findall_loop fuel p t start adv -> start <= length t ->
    exists s e, m = slice t s e /\ s <= e /\ e <= length t /\
                e ∈ ends (pat_ignorecase p) t (pat_regex p) s.
Proof.
  induction fuel as [|fuel IH]; intros start adv m; simpl; [by intros ?%not_elem_of_nil|].
  destruct (search_from p t start adv) as [[s e]|] eqn:Hs; [|by intros ?%not_elem_of_nil].
  intros Hm Hstart. apply search_from_Some in Hs as (? & ? & ? & ? & _); [|done].
  apply elem_of_cons in Hm as [->|Hm]; [by exists s, e|].
  by apply IH in Hm.
Qed.

Lemma findall_elem (m : str) :
  m ∈ findall p t ->
  exists s e, m = slice t s e /\ s <= e /\ e <= length t /\
              e ∈ ends (pat_ignorecase p) t (pat_regex p) s.
Proof. intros Hm. apply findall_loop_elem in Hm; [done|lia]. Qed.

(** The loop stops by itself: it never uses up [findall_fuel]. *)
Lemma findall_loop_stable (fuel : nat) :
  forall (start : nat) (adv : bool),
    start <= length t ->
    2 * (length t - start) + (if adv then 1 else 2) <= fuel ->
    findall_loop (S fuel) p t start adv = findall_loop fuel p t start adv.
Proof.
  induction fuel as [|fuel IH]; intros start adv Hstart Hfuel; [destruct adv; lia|].
  change (findall_loop (S (S fuel)) p t start adv) with
    (match search_from p t start adv with
     | None => []
     | Some (s, e) => slice t s e :: findall_loop (S fuel) p t e (e =? s)
     end).
  change (findall_loop (S fuel) p t start adv) with
    (match search_from p t start adv with
     | None => []
     | Some (s, e) => slice t s e :: findall_loop fuel p t e (e =? s)
     end).
  destruct (search_from p t start adv) as [[s e]|] eqn:Hs; [|done].
  apply search_from_Some in Hs as (? & ? & ? & _ & Hadv); [|done].
  f_equal. apply IH; [done|].
  destruct (Nat.eqb_spec e s) as [->|]; destruct adv; try lia.
  all: destruct (decide (s = start)) as [->|]; [|lia].
  all: by destruct Hadv.
Qed.

Lemma findall_fuel_enough (fuel : nat) :
  findall_fuel t <= fuel -> findall_loop fuel p t 0 false = findall p t.
Proof.
  unfold findall. induction 1 as [|fuel Hle IH]; [done|].
  rewrite <- IH. apply findall_loop_stable; [lia|]. unfold findall_fuel in Hle. lia.
Qed.

(** [findall] finds something exactly when [search] does. *)
Lemma findall_nil_search : findall p t = [] <-> search p t = None.
Proof.
  unfold findall, findall_fuel, search. replace (2 * length t + 2) with (S (2 * length t + 1)) by lia.
  simpl. destruct (search_from p t 0 false) as [[s e]|]; done.
Qed.

End Search.

(** A match of a self-contained pattern, taken alone, is matched by the
    pattern again. *)
Lemma rematch (p : pattern) (t : str) (s e : nat) :
  self_contained p = true ->
  e ∈ ends (pat_ignorecase p) t (pat_regex p) s -> s <= length t ->
  is_Some (search p (slice t s e)).
Proof.
  unfold self_contained.
  intros [[Hn%negb_true_iff Hf]%andb_true_iff Hl]%andb_true_iff He Hs.
  pose proof (ends_forward _ _ _ _ _ He). pose proof (ends_inside _ _ _ _ _ He Hs).
  assert (s <> e).
  { intros ->. apply empty_match_nullable in He. congruence. }
  apply (search_first _ _ (e - s)).
  assert (e - s ∈ ends (pat_ignorecase p) (slice t s e) (pat_regex p) (s - s)) as Hr.
  { apply ends_slice; auto; lia. }
  by rewrite Nat.sub_diag in Hr.
Qed.

Lemma findall_rematch (p : pattern) (t m : str) :
  self_contained p = true -> m ∈ findall p t -> is_Some (search p m).
Proof.
  intros Hp (s & e & -> & ? & ? & He)%findall_elem.
  apply rematch; [done|done|lia].
Qed.

Lemma findall_substring (p : pattern) (t m : str) :
  m ∈ findall p t -> substring m t.
Proof. intros (s & e & -> & ? & ? & _)%findall_elem. by apply slice_substring. Qed.

Lemma patterns_self_contained :
  forallb self_contained (EMAIL_PATTERN :: PHONE_PATTERNS ++ SOCIAL_PATTERNS) = true.
Proof. vm_compute. reflexivity. Qed.

(** ** The boolean check *)

Lemma search_any_value (ps : list pattern) (t : str) :
  value (search_any ps t) = existsb (fun p => has_match p t) ps.
Proof.
  induction ps as [|p ps IH]; [done|]. simpl.
  unfold bind, value in *. simpl. destruct (has_match p t); simpl; auto.
Qed.

Lemma search_any_miss (ps : list pattern) (t : str) :
  (forall q, q ∈ ps -> has_match q t = false) ->
  search_any ps t = (false, Searched <$> ps).
Proof.
  induction ps as [|p ps IH]; intros Hmiss; [done|]. simpl.
  unfold bind. simpl. rewrite (Hmiss p) by (apply elem_of_cons; auto).
  rewrite IH; [done|]. intros q Hq. apply Hmiss, elem_of_cons. auto.
Qed.

Lemma search_any_hit (pre post : list pattern) (p : pattern) (t : str) :
  (forall q, q ∈ pre -> has_match q t = false) -> has_match p t = true ->
  search_any (pre ++ p :: post) t = (true, Searched <$> (pre ++ [p])).
Proof.
  induction pre as [|q pre IH]; intros Hmiss Hhit; simpl; unfold bind; simpl.
  - by rewrite Hhit.
  - rewrite (Hmiss q) by (apply elem_of_cons; auto).
    rewrite IH; [done| |done]. intros q' Hq'. apply Hmiss, elem_of_cons. auto.
Qed.

Lemma contains_value (t : str) :
  t <> [] ->
  value (contains_contact_info (Some t)) =
  has_match EMAIL_PATTERN t
  || existsb (fun p => has_match p t) PHONE_PATTERNS
  || existsb (fun p => has_match p t) SOCIAL_PATTERNS.
Proof.
  intros Ht. destruct t as [|c t]; [done|].
  unfold contains_contact_info. generalize (c :: t). clear. intros t.
  rewrite <- !search_any_value.
  generalize EMAIL_PATTERN, PHONE_PATTERNS, SOCIAL_PATTERNS. intros pe ps1 ps2.
  unfold bind, value. simpl.
  destruct (has_match pe t); [done|]. simpl.
  destruct (search_any ps1 t) as [[|] ?]; [done|]. simpl.
  by destruct (search_any ps2 t) as [[|] ?].
Qed.

(** ** The detailed report *)

Lemma all_matches_cons (p : pattern) (ps : list pattern) (t : str) :
  all_matches (p :: ps) t = findall p t ++ all_matches ps t.
Proof. done. Qed.

Lemma elem_of_all_matches (ps : list pattern) (t m : str) :
  m ∈ all_matches ps t <-> exists p, p ∈ ps /\ m ∈ findall p t.
Proof.
  unfold all_matches. rewrite list_elem_of_bind.
  split; intros (p & ? & ?); by exists p.
Qed.

Lemma extend_all_value (key : string) (ps : list pattern) (t : str)
    (found : gmap string (list str)) :
  value (extend_all key ps t found) = alter (fun l => l ++ all_matches ps t) key found.
Proof.
  revert found. induction ps as [|p ps IH]; intros found.
  - simpl. symmetry. apply alter_id. intros l _. apply app_nil_r.
  - simpl. unfold bind, value in *. simpl. rewrite IH.
    apply map_eq. intros k. rewrite !lookup_alter. case_decide; [|done].
    rewrite decide_True by done.
    destruct (found !! key) as [l|]; [|done]. simpl.
    by rewrite app_assoc.
Qed.

Lemma extend_all_trace (key : string) (ps : list pattern) (t : str)
    (found : gmap string (list str)) :
  trace (extend_all key ps t found) = FoundAll <$> ps.
Proof.
  revert found. induction ps as [|p ps IH]; intros found; [done|].
  simpl. unfold bind, trace in *. simpl. by rewrite IH.
Qed.

Lemma elem_of_list_set (l : list str) (m : str) : m ∈ list_set l <-> m ∈ l.
Proof. unfold list_set. by rewrite elem_of_elements, elem_of_list_to_set. Qed.

Lemma NoDup_list_set (l : list str) : NoDup (list_set l).
Proof. unfold list_set. apply NoDup_elements. Qed.

Lemma truthy_list_set (l : list str) : truthy (list_set l) = truthy l.
Proof.
  destruct l as [|m l]; [done|]. simpl.
  destruct (list_set (m :: l)) as [|m' l'] eqn:Hl; [|done].
  assert (m ∈ list_set (m :: l)) as Hm by (apply elem_of_list_set, elem_of_cons; auto).
  rewrite Hl in Hm. by apply not_elem_of_nil in Hm.
Qed.

Lemma truthy_findall (p : pattern) (t : str) : truthy (findall p t) = has_match p t.
Proof.
  unfold has_match. pose proof (findall_nil_search p t) as Hn.
  destruct (findall p t), (search p t); simpl; try done.
  - by destruct Hn as [Hn _]; specialize (Hn eq_refl).
  - by destruct Hn as [_ Hn]; specialize (Hn eq_refl).
Qed.

Lemma truthy_all_matches (ps : list pattern) (t : str) :
  truthy (all_matches ps t) = existsb (fun p => has_match p t) ps.
Proof.
  induction ps as [|p ps IH]; [done|].
  rewrite all_matches_cons. simpl. rewrite <- IH, <- truthy_findall.
  by destruct (findall p t).
Qed.

Lemma detect_value (t : str) :
  t <> [] ->
  value (detect_contact_info (Some t)) =
  MkDetectionResult
    (has_match EMAIL_PATTERN t
     || existsb (fun p => has_match p t) PHONE_PATTERNS
     || existsb (fun p => has_match p t) SOCIAL_PATTERNS)
    (report t).
Proof.
  intros Ht. destruct t as [|c t]; [done|].
  unfold detect_contact_info, report. generalize (c :: t). clear. intros t.
  rewrite <- truthy_findall, <- !truthy_all_matches.
  generalize EMAIL_PATTERN, PHONE_PATTERNS, SOCIAL_PATTERNS. intros pe ps1 ps2.
  unfold bind, ret, pattern_findall. cbn [fst snd value].
  pose proof extend_all_value as Hv. unfold value in Hv. rewrite !Hv. clear Hv.
  unfold dedupe.
  repeat (rewrite lookup_total_alter_eq || rewrite lookup_total_insert_eq
          || (rewrite lookup_total_insert_ne by done)
          || (rewrite lookup_total_alter_ne by done)).
  rewrite !truthy_list_set. reflexivity.
Qed.

Lemma contains_run (t : str) :
  t <> [] ->
  contains_contact_info (Some t) =
  if has_match EMAIL_PATTERN t then (true, [Searched EMAIL_PATTERN])
  else
    let phones := search_any PHONE_PATTERNS t in
    if value phones then (true, Searched EMAIL_PATTERN :: trace phones)
    else
      let social := search_any SOCIAL_PATTERNS t in
      (value social, Searched EMAIL_PATTERN :: trace phones ++ trace social).
Proof.
  intros Ht. destruct t as [|c t]; [done|].
  unfold contains_contact_info. generalize (c :: t). clear. intros t.
  generalize EMAIL_PATTERN, PHONE_PATTERNS, SOCIAL_PATTERNS. intros pe ps1 ps2.
  unfold bind, pattern_search, ret, value, trace. cbn [fst snd].
  destruct (has_match pe t); [done|].
  destruct (search_any ps1 t) as [[|] l1]; cbn [fst snd]; [by rewrite app_nil_r|].
  destruct (search_any ps2 t) as [[|] l2]; cbn [fst snd]; by rewrite ?app_nil_r.
Qed.

Lemma report_emails (t : str) : report t !! "emails" = Some (findall EMAIL_PATTERN t).
Proof. done. Qed.

Lemma report_phones (t : str) :
  report t !! "phones" = Some (list_set (all_matches PHONE_PATTERNS t)).
Proof. done. Qed.


Lemma report_lookup (t : str) (key : string) (l : list str) :
  report t !! key = Some l ->
  (key = "emails" /\ l = findall EMAIL_PATTERN t) \/
  (key = "phones" /\ l = list_set (all_matches PHONE_PATTERNS t)) \/
  (key = "social" /\ l = list_set (all_matches SOCIAL_PATTERNS t)).
Proof.
  unfold report. rewrite !lookup_insert, lookup_empty.
  repeat case_decide; subst; intros [= <-]; auto.
Qed.

Lemma pattern_self_contained (p : pattern) :
  p ∈ EMAIL_PATTERN :: PHONE_PATTERNS ++ SOCIAL_PATTERNS -> self_contained p = true.
Proof.
  intros Hp%list_elem_of_In. pose proof patterns_self_contained as Hall.
  rewrite forallb_forall in Hall. by apply Hall.
Qed.

(** * The two checks compared and characterised *)

(** C1: the boolean check and the detailed check agree on every input,
    absent, empty or not: [contains_contact_info] returns true exactly
    when the result of [detect_contact_info] has [has_contact_info] true. *)
Theorem quick_check_agrees_with_detailed (text : option str) :
  value (contains_contact_info text) =
  has_contact_info (value (detect_contact_info text)).
Proof.
  destruct text as [t|]; [|done].
  destruct (decide (t = [])) as [->|Ht]; [done|].
  by rewrite contains_value, detect_value.
Qed.

(** C2, at the input where it fails: on ["a@b.co a@b.co"] the list under
    ['emails'] holds the same address twice, because the result of
    [EMAIL_PATTERN.findall] is stored as it is, whereas the lists under
    ['phones'] and ['social'] go through [list(set(...))]. *)
Theorem emails_keep_duplicates :
  let r := value (detect_contact_info (Some (codes "a@b.co a@b.co"))) in
  details r !! "emails" = Some [codes "a@b.co"; codes "a@b.co"] /\
  ~ NoDup [codes "a@b.co"; codes "a@b.co"].
Proof.
  split.
  - rewrite detect_value by done. cbn [details]. rewrite report_emails.
    vm_compute. reflexivity.
  - intros Hd. apply NoDup_cons in Hd as [Hd _]. apply Hd. constructor.
Qed.

(** X1: the lists under ['phones'] and ['social'], which are passed
    through [list(set(...))], hold distinct strings. *)
Theorem phones_and_social_distinct (t : str) (key : string) (l : list str) :
  t <> [] -> key <> "emails" ->
  details (value (detect_contact_info (Some t))) !! key = Some l -> NoDup l.
Proof.
  intros Ht Hkey. rewrite detect_value by done. cbn [details].
  intros [[? _]|[[_ ->]|[_ ->]]]%report_lookup; [done| |]; apply NoDup_list_set.
Qed.

(** C3: in every result of [detect_contact_info], [has_contact_info] is
    true exactly when one of the three categories is present in the
    details with a list that is not empty. *)
Theorem has_contact_info_iff_some_category (text : option str) :
  let r := value (detect_contact_info text) in
  has_contact_info r = true <->
  exists key l, key ∈ ["emails"; "phones"; "social"] /\
                details r !! key = Some l /\ l <> [].
Proof.
  destruct text as [t|]; [destruct (decide (t = [])) as [->|Ht]|].
  2: {
    cbv zeta. rewrite detect_value by done. cbn [has_contact_info details].
    rewrite <- truthy_findall, <- !truthy_all_matches.
    rewrite <- (truthy_list_set (all_matches PHONE_PATTERNS t)).
    rewrite <- (truthy_list_set (all_matches SOCIAL_PATTERNS t)).
    split.
    - intros [[H|H]%orb_true_iff|H]%orb_true_iff.
      + exists "emails", (findall EMAIL_PATTERN t). split_and!; [set_solver|done|].
        by destruct (findall EMAIL_PATTERN t).
      + exists "phones", (list_set (all_matches PHONE_PATTERNS t)).
        split_and!; [set_solver|done|]. by destruct (list_set _).
      + exists "social", (list_set (all_matches SOCIAL_PATTERNS t)).
        split_and!; [set_solver|done|]. by destruct (list_set _).
    - intros (key & l & _ & Hl & Hne).
      assert (truthy l = true) as Hl' by (by destruct l).
      apply report_lookup in Hl as [[_ ->]|[[_ ->]|[_ ->]]]; rewrite Hl';
        by rewrite ?orb_true_r.
  }
  all: simpl; split; [done|]; intros (key & l & _ & Hl & _);
    by rewrite lookup_empty in Hl.
Qed.

(** C4: for absent ([None]) and for empty input, [contains_contact_info]
    returns false and [detect_contact_info] returns the result with
    [has_contact_info] false and the empty dict, as ordinary values and
    without a call on any pattern: the trace is empty. *)
Theorem empty_input_touches_no_pattern :
  contains_contact_info None = (false, []) /\
  contains_contact_info (Some []) = (false, []) /\
  detect_contact_info None = (MkDetectionResult false ∅, []) /\
  detect_contact_info (Some []) = (MkDetectionResult false ∅, []).
Proof. by split_and!. Qed.

(** X2: on a text that is not empty [detect_contact_info] calls
    [findall] on the email pattern, on every phone pattern and on every
    social pattern, in list order, whatever was found before. *)
Theorem detailed_check_evaluates_all_patterns (t : str) :
  t <> [] ->
  trace (detect_contact_info (Some t)) =
  FoundAll <$> EMAIL_PATTERN :: PHONE_PATTERNS ++ SOCIAL_PATTERNS.
Proof.
  intros Ht. destruct t as [|c t]; [done|].
  unfold detect_contact_info. generalize (c :: t). clear. intros t.
  generalize EMAIL_PATTERN, PHONE_PATTERNS, SOCIAL_PATTERNS. intros pe ps1 ps2.
  pose proof extend_all_trace as Ht. unfold trace in Ht.
  unfold bind, ret, pattern_findall, trace. cbn [fst snd].
  by rewrite !Ht, app_nil_r, fmap_cons, fmap_app.
Qed.

(** C5: on a text that is not empty [contains_contact_info] searches the
    email pattern first and stops with true when it matches; otherwise
    it goes through the phone patterns in list order and stops with true
    at the first that matches; otherwise through the social patterns in
    the same way; and it returns false, having searched every pattern,
    when none matches. *)
Theorem quick_check_order (t : str) :
  t <> [] ->
  let r := contains_contact_info (Some t) in
  (has_match EMAIL_PATTERN t = true ->
   value r = true /\ trace r = [Searched EMAIL_PATTERN]) /\
  (has_match EMAIL_PATTERN t = false ->
   forall pre p post,
     PHONE_PATTERNS = pre ++ p :: post ->
     (forall q, q ∈ pre -> has_match q t = false) -> has_match p t = true ->
     value r = true /\ trace r = Searched <$> EMAIL_PATTERN :: pre ++ [p]) /\
  (has_match EMAIL_PATTERN t = false ->
   (forall q, q ∈ PHONE_PATTERNS -> has_match q t = false) ->
   forall pre p post,
     SOCIAL_PATTERNS = pre ++ p :: post ->
     (forall q, q ∈ pre -> has_match q t = false) -> has_match p t = true ->
     value r = true /\
     trace r = Searched <$> EMAIL_PATTERN :: PHONE_PATTERNS ++ pre ++ [p]) /\
  (has_match EMAIL_PATTERN t = false ->
   (forall q, q ∈ PHONE_PATTERNS -> has_match q t = false) ->
   (forall q, q ∈ SOCIAL_PATTERNS -> has_match q t = false) ->
   value r = false /\
   trace r = Searched <$> EMAIL_PATTERN :: PHONE_PATTERNS ++ SOCIAL_PATTERNS).
Proof.
  intros Ht r. subst r. rewrite contains_run by done. split_and!.
  - by intros ->.
  - intros -> pre p post -> Hpre Hp. by rewrite search_any_hit.
  - intros -> Hphones pre p post -> Hpre Hp.
    rewrite search_any_miss, search_any_hit by done.
    unfold value, trace. cbn [fst snd]. split; [done|].
    by rewrite fmap_cons, !fmap_app.
  - intros -> Hphones Hsocial. rewrite !search_any_miss by done.
    unfold value, trace. cbn [fst snd]. split; [done|].
    by rewrite fmap_cons, !fmap_app.
Qed.

(** C6: every string listed under a category of the report on any input
    is, taken alone as a text, matched by a pattern of that category. *)
Theorem reported_string_matches_its_category
    (text : option str) (key : string) (l : list str) (m : str) :
  details (value (detect_contact_info text)) !! key = Some l -> m ∈ l ->
  exists p, p ∈ category_patterns key /\ has_match p m = true.
Proof.
  destruct text as [t|]; [destruct (decide (t = [])) as [->|Ht]|]; [done| |done].
  rewrite detect_value by done. cbn [details].
  assert (forall p, self_contained p = true -> m ∈ findall p t -> has_match p m = true)
    as Hre.
  { intros p Hp Hm. unfold has_match.
    by destruct (findall_rematch p t m Hp Hm) as [x ->]. }
  intros [[-> ->]|[[-> ->]|[-> ->]]]%report_lookup Hm.
  - exists EMAIL_PATTERN. split; [by apply list_elem_of_singleton|].
    apply Hre; [|done]. apply pattern_self_contained. by left.
  - apply elem_of_list_set, elem_of_all_matches in Hm as (p & Hp & Hm).
    exists p. split; [done|]. apply Hre; [|done].
    apply pattern_self_contained. right. apply elem_of_app. by left.
  - apply elem_of_list_set, elem_of_all_matches in Hm as (p & Hp & Hm).
    exists p. split; [done|]. apply Hre; [|done].
    apply pattern_self_contained. right. apply elem_of_app. by right.
Qed.

(** C7: on ["Contact me at john.doe@email.com"] the result has
    [has_contact_info] true and the list under ['emails'] is
    [["john.doe@email.com"]]. *)
Theorem email_scenario :
  let r := value (detect_contact_info (Some (codes "Contact me at john.doe@email.com"))) in
  has_contact_info r = true /\
  details r !! "emails" = Some [codes "john.doe@email.com"].
Proof.
  cbv zeta. rewrite detect_value by done. cbn [has_contact_info details]. split.
  - vm_compute. reflexivity.
  - rewrite report_emails. vm_compute. reflexivity.
Qed.





(** C9: on a text that is not empty the details have exactly the keys
    ['emails'], ['phones'] and ['social'] (each bound to a list); and the
    empty dict is returned for absent or empty input only. *)
Theorem details_keys (t : str) :
  t <> [] ->
  dom (details (value (detect_contact_info (Some t)))) = {["emails"; "phones"; "social"]} /\
  (forall text, details (value (detect_contact_info text)) = ∅ ->
                text = None \/ text = Some []).
Proof.
  intros Ht. split.
  - rewrite detect_value by done. cbn [details]. unfold report.
    rewrite !dom_insert_L, dom_empty_L. set_solver.
  - intros [t'|]; [|by left]. destruct (decide (t' = [])) as [->|Ht']; [by right|].
    rewrite detect_value by done. cbn [details]. intros He.
    pose proof (report_emails t') as Hl. rewrite He in Hl. by rewrite lookup_empty in Hl.
Qed.

(** C10: every string reported under any category for a text is a run
    of consecutive characters of that text. *)
Theorem reported_string_is_substring (t : str) (key : string) (l : list str) (m : str) :
  details (value (detect_contact_info (Some t))) !! key = Some l -> m ∈ l ->
  substring m t.
Proof.
  destruct (decide (t = [])) as [->|Ht]; [done|].
  rewrite detect_value by done. cbn [details].
  intros [[_ ->]|[[_ ->]|[_ ->]]]%report_lookup Hm.
  - by apply findall_substring in Hm.
  - apply elem_of_list_set, elem_of_all_matches in Hm as (p & _ & Hm).
    by apply findall_substring in Hm.
  - apply elem_of_list_set, elem_of_all_matches in Hm as (p & _ & Hm).
    by apply findall_substring in Hm.
Qed.

(** * Further properties *)

Lemma all_patterns_checked :
  length_within 6 None EMAIL_PATTERN = true /\
  forallb (length_within 10 (Some 16)) PHONE_PATTERNS = true /\
  forallb (length_within 2 None) SOCIAL_PATTERNS = true /\
  forallb (fun p => needs_telltale (pat_ignorecase p) (pat_regex p))
          (EMAIL_PATTERN :: PHONE_PATTERNS ++ SOCIAL_PATTERNS) = true /\
  forallb (fun p => case_blind (pat_ignorecase p) (pat_regex p))
          (EMAIL_PATTERN :: PHONE_PATTERNS ++ SOCIAL_PATTERNS) = true.
Proof. vm_compute. done. Qed.

Lemma pattern_in_tables (p : pattern) :
  p ∈ EMAIL_PATTERN :: PHONE_PATTERNS ++ SOCIAL_PATTERNS <->
  p = EMAIL_PATTERN \/ p ∈ PHONE_PATTERNS \/ p ∈ SOCIAL_PATTERNS.
Proof. by rewrite elem_of_cons, elem_of_app. Qed.

Lemma forallb_elem_of {A} (f : A -> bool) (l : list A) (x : A) :
  forallb f l = true -> x ∈ l -> f x = true.
Proof. rewrite forallb_forall. intros Hall Hx%list_elem_of_In. by apply Hall. Qed.

(** ** Lengths of the matches *)

Lemma ends_length (ic : bool) (t : str) (r : regex) :
  forall i j, j ∈ ends ic t r i ->
              min_len r <= j - i /\ (forall n, max_len r = Some n -> j - i <= n).
Proof.
  induction r as [a|lo hi a| | |r1 IH1 r2 IH2|r1 IH1 r2 IH2|]; intros i j Hj.
  - apply elem_of_ends_one in Hj as (c & _ & _ & ->). simpl. split; [lia|].
    intros n [= <-]. lia.
  - apply elem_of_ends_repeat in Hj as (k & -> & Hlo & Hk). simpl. split; [lia|].
    intros n ->. pose proof (count_le_length ic a (window t i (Some n))) as Hc.
    simpl in Hc. rewrite length_take in Hc. simpl in Hk. lia.
  - rewrite (zero_width_sound ic t AtBeginning eq_refl _ _ Hj). simpl. split; [lia|].
    intros n [= <-]. lia.
  - rewrite (zero_width_sound ic t AtBoundary eq_refl _ _ Hj). simpl. split; [lia|].
    intros n [= <-]. lia.
  - simpl in Hj. simpl.
    apply elem_of_app in Hj as [[Hm HM]%IH1|[Hm HM]%IH2]; (split; [lia|]);
      destruct (max_len r1) as [n1|], (max_len r2) as [n2|]; try done;
      intros n [= <-]; specialize (HM _ eq_refl); lia.
  - apply elem_of_ends_seq in Hj as (k & Hk & Hj).
    pose proof (ends_forward _ _ _ _ _ Hk). pose proof (ends_forward _ _ _ _ _ Hj).
    apply IH1 in Hk as [Hm1 HM1]. apply IH2 in Hj as [Hm2 HM2]. simpl. split; [lia|].
    destruct (max_len r1) as [n1|], (max_len r2) as [n2|]; try done.
    intros n [= <-]. specialize (HM1 _ eq_refl). specialize (HM2 _ eq_refl). lia.
  - rewrite (zero_width_sound ic t Empty eq_refl _ _ Hj). simpl. split; [lia|].
    intros n [= <-]. lia.
Qed.

Lemma findall_length (p : pattern) (t m : str) (lo : nat) (hi : option nat) :
  length_within lo hi p = true -> m ∈ findall p t ->
  lo <= length m /\ (forall h, hi = Some h -> length m <= h).
Proof.
  unfold length_within. intros [Hlo%Nat.leb_le Hhi]%andb_true_iff.
  intros (s & e & -> & ? & ? & [Hm HM]%ends_length)%findall_elem.
  rewrite length_slice by done. split; [lia|]. intros h ->.
  destruct (max_len (pat_regex p)) as [n|]; [|done].
  apply Nat.leb_le in Hhi. specialize (HM _ eq_refl). lia.
Qed.

Lemma all_matches_length (ps : list pattern) (t m : str) (lo : nat) (hi : option nat) :
  forallb (length_within lo hi) ps = true -> m ∈ all_matches ps t ->
  lo <= length m /\ (forall h, hi = Some h -> length m <= h).
Proof.
  intros Hall (p & Hp & Hm)%elem_of_all_matches.
  eapply findall_length; [|done]. by eapply forallb_elem_of.
Qed.

(** X3: every email entry of the report has at least 6 characters, every
    phone entry between 10 and 16, and every social entry at least 2. *)
Theorem reported_string_lengths (text : option str) (key : string) (l : list str) (m : str) :
  details (value (detect_contact_info text)) !! key = Some l -> m ∈ l ->
  (key = "emails" -> 6 <= length m) /\
  (key = "phones" -> 10 <= length m <= 16) /\
  (key = "social" -> 2 <= length m).
Proof.
  destruct text as [t|]; [destruct (decide (t = [])) as [->|Ht]|]; [done| |done].
  rewrite detect_value by done. cbn [details].
  destruct all_patterns_checked as (He & Hp & Hs & _).
  intros [[-> ->]|[[-> ->]|[-> ->]]]%report_lookup Hm; split_and!; try done; intros _.
  - by destruct (findall_length _ _ _ _ _ He Hm).
  - rewrite elem_of_list_set in Hm.
    destruct (all_matches_length _ _ _ _ _ Hp Hm) as [? HM]. specialize (HM _ eq_refl). lia.
  - rewrite elem_of_list_set in Hm. by destruct (all_matches_length _ _ _ _ _ Hs Hm).
Qed.

(** ** From one pattern to the boolean check *)

Lemma has_match_empty (p : pattern) :
  p ∈ EMAIL_PATTERN :: PHONE_PATTERNS ++ SOCIAL_PATTERNS -> has_match p [] = false.
Proof.
  intros Hp. unfold has_match. destruct (search p []) as [[s e]|] eqn:Hs; [|done].
  apply search_from_Some in Hs as (_ & ? & He & Hin & _); [|simpl; lia].
  simpl in He. assert (s = 0 /\ e = 0) as [-> ->] by lia.
  apply empty_match_nullable in Hin. apply pattern_self_contained in Hp.
  unfold self_contained in Hp. rewrite Hin in Hp. done.
Qed.

(** A text matched by a pattern of the tables is flagged. *)
Lemma has_match_contains (p : pattern) (t : str) :
  p ∈ EMAIL_PATTERN :: PHONE_PATTERNS ++ SOCIAL_PATTERNS -> has_match p t = true ->
  value (contains_contact_info (Some t)) = true.
Proof.
  intros Hp Hm. assert (t <> []) as Ht.
  { intros ->. by rewrite has_match_empty in Hm. }
  rewrite contains_value by done.
  apply pattern_in_tables in Hp as [->|[Hp|Hp]].
  - by rewrite Hm.
  - assert (existsb (fun p => has_match p t) PHONE_PATTERNS = true) as ->.
    { apply existsb_exists. exists p. split; [by apply list_elem_of_In|done]. }
    by rewrite orb_true_r.
  - assert (existsb (fun p => has_match p t) SOCIAL_PATTERNS = true) as ->.
    { apply existsb_exists. exists p. split; [by apply list_elem_of_In|done]. }
    by rewrite orb_true_r.
Qed.

(** A text matched by no pattern of the tables is not flagged. *)
Lemma no_match_clean (t : str) :
  (forall p, p ∈ EMAIL_PATTERN :: PHONE_PATTERNS ++ SOCIAL_PATTERNS -> has_match p t = false) ->
  value (contains_contact_info (Some t)) = false /\
  has_contact_info (value (detect_contact_info (Some t))) = false.
Proof.
  intros Hno. destruct (decide (t = [])) as [->|Ht]; [done|].
  rewrite contains_value, detect_value by done. cbn [has_contact_info].
  assert (forall ps, (forall p, p ∈ ps -> has_match p t = false) ->
                     existsb (fun p => has_match p t) ps = false) as Hex.
  { intros ps Hps. induction ps as [|q ps IH]; [done|]. simpl.
    rewrite (Hps q) by (apply elem_of_cons; auto). apply IH.
    intros p Hp. apply Hps, elem_of_cons. auto. }
  rewrite (Hno EMAIL_PATTERN) by (apply pattern_in_tables; auto).
  rewrite !Hex; [done| |]; intros p Hp; apply Hno, pattern_in_tables; auto.
Qed.

(** [search] finds a match wherever one starts. *)
Lemma scan_complete (p : pattern) (t : str) (i e : nat) (left : nat) :
  e ∈ ends (pat_ignorecase p) t (pat_regex p) i ->
  forall start adv, start <= i <= start + left -> (adv = true -> start < i) ->
                    is_Some (scan p t adv start left).
Proof.
  intros He. induction left as [|left IH]; intros start adv Hi Hadv; simpl.
  - assert (start = i) as -> by lia. destruct adv; [lia|].
    destruct (match_at_first p t i e He) as [x ->]. by eexists.
  - destruct (match_at p t start adv) as [x|] eqn:Hm; [by eexists|].
    apply IH; [|done]. destruct (decide (start = i)) as [->|]; [|lia].
    destruct adv; [lia|]. destruct (match_at_first p t i e He) as [x Hx]. congruence.
Qed.

Lemma search_complete (p : pattern) (t : str) (i e : nat) :
  e ∈ ends (pat_ignorecase p) t (pat_regex p) i -> i <= length t -> has_match p t = true.
Proof.
  intros He Hi. unfold has_match, search, search_from.
  destruct (scan_complete p t i e (length t - 0) He 0 false) as [x ->]; [lia|done|done].
Qed.

Lemma has_match_ends (p : pattern) (t : str) :
  has_match p t = true ->
  exists s e, s <= e /\ e <= length t /\ e ∈ ends (pat_ignorecase p) t (pat_regex p) s.
Proof.
  unfold has_match. destruct (search p t) as [[s e]|] eqn:Hs; [|done]. intros _.
  apply search_from_Some in Hs as (_ & ? & ? & ? & _); [|lia]. by exists s, e.
Qed.

(** ** Text that cannot be flagged *)

Lemma item_telltale_sound (it : set_item) (c : N) :
  item_telltale it = true -> item_match it c = true -> telltale c = true.
Proof.
  destruct it as [a|lo hi|[|]]; simpl; intros Hw Hm; try done.
  - by apply N.eqb_eq in Hm as ->.
  - by eapply forallb_elem_of, elem_of_range_list.
  - unfold telltale. rewrite Hm. apply orb_true_r.
Qed.

Lemma atom_telltale_sound (ic : bool) (a : atom) (c : N) :
  atom_telltale ic a = true -> atom_match ic a c = true -> telltale c = true.
Proof.
  destruct a as [x|items]; simpl; intros [Hic%negb_true_iff Hw]%andb_true_iff; rewrite Hic.
  - by intros ->%N.eqb_eq.
  - intros (it & Hit & Hm)%existsb_exists.
    eapply item_telltale_sound; [|done]. by eapply forallb_elem_of, list_elem_of_In.
Qed.

Lemma needs_telltale_sound (ic : bool) (t : str) (r : regex) :
  needs_telltale ic r = true ->
  forall i j, j ∈ ends ic t r i ->
              exists n c, i <= n < j /\ t !! n = Some c /\ telltale c = true.
Proof.
  induction r as [a|lo hi a| | |r1 IH1 r2 IH2|r1 IH1 r2 IH2|]; intros Hw i j Hj;
    cbn [needs_telltale] in Hw; try done.
  - apply elem_of_ends_one in Hj as (c & Hc & Hm & ->).
    exists i, c. split_and!; [lia|lia|done|by eapply atom_telltale_sound].
  - apply repeat_positive in Hw as [Hlo Hw].
    destruct (repeat_char ic t lo hi a i j i Hj) as (c & Hc & Hm).
    { apply elem_of_ends_repeat in Hj as (k & -> & Hk). lia. }
    pose proof (ends_forward _ _ _ _ _ Hj).
    assert (i < j). { apply elem_of_ends_repeat in Hj as (k & -> & Hk). lia. }
    exists i, c. split_and!; [lia|lia|done|by eapply atom_telltale_sound].
  - apply andb_true_iff in Hw as [Hw1 Hw2]. simpl in Hj.
    apply elem_of_app in Hj as [Hj|Hj]; eauto.
  - apply elem_of_ends_seq in Hj as (k & Hk & Hj).
    pose proof (ends_forward _ _ _ _ _ Hk). pose proof (ends_forward _ _ _ _ _ Hj).
    apply orb_true_iff in Hw as [Hw|Hw].
    + destruct (IH1 Hw _ _ Hk) as (n & c & ? & ? & ?). exists n, c. split_and!; [lia|lia|done|done].
    + destruct (IH2 Hw _ _ Hj) as (n & c & ? & ? & ?). exists n, c. split_and!; [lia|lia|done|done].
Qed.

(** X4: a text without ['@'], without ['/'] and without decimal digits is
    never flagged, by neither check. *)
Theorem plain_text_is_clean (t : str) :
  Forall (fun c => telltale c = false) t ->
  value (contains_contact_info (Some t)) = false /\
  has_contact_info (value (detect_contact_info (Some t))) = false.
Proof.
  intros Hplain. apply no_match_clean. intros p Hp.
  destruct (has_match p t) eqn:Hm; [|done].
  apply has_match_ends in Hm as (s & e & _ & _ & He).
  destruct all_patterns_checked as (_ & _ & _ & Hall & _).
  apply needs_telltale_sound in He as (n & c & _ & Hc & Htell).
  - rewrite Forall_lookup in Hplain. specialize (Hplain _ _ Hc). simpl in Hplain. congruence.
  - by apply (forallb_elem_of _ _ p) in Hall.
Qed.

(** ** Findings stay findings *)

Lemma reported_rematch (t : str) (key : string) (l : list str) (m : str) :
  t <> [] -> report t !! key = Some l -> m ∈ l ->
  exists p, p ∈ EMAIL_PATTERN :: PHONE_PATTERNS ++ SOCIAL_PATTERNS /\ has_match p m = true.
Proof.
  intros Ht Hl Hm.
  assert (exists p, p ∈ EMAIL_PATTERN :: PHONE_PATTERNS ++ SOCIAL_PATTERNS /\ m ∈ findall p t)
    as (p & Hp & Hf).
  { apply report_lookup in Hl as [[_ ->]|[[_ ->]|[_ ->]]].
    - exists EMAIL_PATTERN. split; [apply pattern_in_tables; auto|done].
    - rewrite elem_of_list_set, elem_of_all_matches in Hm. destruct Hm as (p & ? & ?).
      exists p. split; [apply pattern_in_tables; auto|done].
    - rewrite elem_of_list_set, elem_of_all_matches in Hm. destruct Hm as (p & ? & ?).
      exists p. split; [apply pattern_in_tables; auto|done]. }
  exists p. split; [done|]. unfold has_match.
  by destruct (findall_rematch p t m (pattern_self_contained p Hp) Hf) as [x ->].
Qed.

(** X5: a string listed in the report, checked on its own, is flagged by
    both checks. *)
Theorem reported_string_is_flagged (text : option str) (key : string) (l : list str) (m : str) :
  details (value (detect_contact_info text)) !! key = Some l -> m ∈ l ->
  value (contains_contact_info (Some m)) = true /\
  has_contact_info (value (detect_contact_info (Some m))) = true.
Proof.
  destruct text as [t|]; [destruct (decide (t = [])) as [->|Ht]|]; [done| |done].
  rewrite detect_value by done. cbn [details]. intros Hl Hm.
  destruct (reported_rematch t key l m Ht Hl Hm) as (p & Hp & Hhit).
  pose proof (has_match_contains p m Hp Hhit) as Hc. split; [done|].
  assert (m <> []) as Hne. { intros ->. by rewrite has_match_empty in Hhit. }
  rewrite contains_value in Hc by done. by rewrite detect_value.
Qed.

(** ** Text around a match *)

Section Embed.

Variable ic : bool.
Variables pre t post : str.

Lemma lookup_embed (i : nat) (c : N) :
  t !! i = Some c -> (pre ++ t ++ post) !! (length pre + i) = Some c.
Proof.
  intros Hc. rewrite lookup_app_r by lia.
  replace (length pre + i - length pre) with i by lia. by apply lookup_app_l_Some.
Qed.

Lemma take_window_embed (i k : nat) (hi : option nat) :
  k <= length (window t i hi) ->
  take k (window (pre ++ t ++ post) (length pre + i) hi) = take k (window t i hi).
Proof.
  intros Hk.
  assert (drop (length pre + i) (pre ++ t ++ post) = drop i t ++ drop (i - length t) post) as Hd.
  { rewrite <- drop_drop, drop_app_length. apply drop_app. }
  destruct hi as [h|]; simpl in *; rewrite Hd.
  - rewrite length_take in Hk. rewrite !take_take. apply take_app_le. lia.
  - apply take_app_le. lia.
Qed.

(** A match of a pattern that tests nothing about its surroundings is
    still a match when text is put around the text. *)
Lemma ends_embed (r : regex) :
  context_free r = true ->
  forall i j, j ∈ ends ic t r i ->
              length pre + j ∈ ends ic (pre ++ t ++ post) r (length pre + i).
Proof.
  induction r as [a|lo hi a| | |r1 IH1 r2 IH2|r1 IH1 r2 IH2|]; intros Hcf i j Hj;
    cbn [context_free] in Hcf; try done.
  - apply elem_of_ends_one in Hj as (c & Hc & Hm & ->).
    apply elem_of_ends_one. exists c. split_and!; [by apply lookup_embed|done|lia].
  - apply elem_of_ends_repeat in Hj as (k & -> & Hlo & Hk).
    apply elem_of_ends_repeat. exists k. split_and!; [lia|done|].
    apply (count_take ic a k (window t i hi)); [|done].
    symmetry. apply take_window_embed.
    pose proof (count_le_length ic a (window t i hi)). lia.
  - apply andb_true_iff in Hcf as [H1 H2]. simpl in *.
    apply elem_of_app. apply elem_of_app in Hj as [Hj|Hj]; auto.
  - apply andb_true_iff in Hcf as [H1 H2].
    apply elem_of_ends_seq in Hj as (k & Hk & Hj). apply elem_of_ends_seq.
    exists (length pre + k). auto.
  - simpl in *. apply list_elem_of_singleton in Hj as ->. by apply list_elem_of_singleton.
Qed.

End Embed.

(** X6: what the email pattern, a phone pattern beginning with [+63] or a
    profile-URL pattern matches cannot be hidden by more text: if such a
    pattern (one that tests nothing about the surroundings of its match)
    matches [m], every text that contains [m] is flagged. *)
Theorem surrounding_text_hides_nothing (p : pattern) (m t : str) :
  p ∈ EMAIL_PATTERN :: PHONE_PATTERNS ++ SOCIAL_PATTERNS ->
  context_free (pat_regex p) = true ->
  has_match p m = true -> substring m t ->
  value (contains_contact_info (Some t)) = true.
Proof.
  intros Hp Hcf (s & e & ? & ? & He)%has_match_ends (pre & post & ->).
  apply (has_match_contains p); [done|].
  apply (search_complete p _ (length pre + s) (length pre + e)).
  - by apply ends_embed.
  - rewrite !length_app. lia.
Qed.

(** The patterns that test nothing about the surroundings of a match:
    the email pattern, the phone patterns 1, 3 and 4 (those with the
    country code) and all social patterns but the handle pattern. *)
Lemma context_free_patterns :
  filter (fun p => context_free (pat_regex p) = true)
         (EMAIL_PATTERN :: PHONE_PATTERNS ++ SOCIAL_PATTERNS) =
  EMAIL_PATTERN ::
  nth 0 PHONE_PATTERNS EMAIL_PATTERN :: nth 2 PHONE_PATTERNS EMAIL_PATTERN ::
  nth 3 PHONE_PATTERNS EMAIL_PATTERN :: drop 1 SOCIAL_PATTERNS.
Proof. vm_compute. reflexivity. Qed.

(** ** The case of ASCII letters *)

Lemma between_spec (lo hi c : N) : between lo hi c = true <-> (lo <= c <= hi)%N.
Proof. unfold between. rewrite andb_true_iff, !N.leb_le. done. Qed.

Lemma ascii_letter_word (c : N) : ascii_letter c = true -> is_word c = true.
Proof.
  intros Hc. unfold is_word, is_alnum, is_alpha.
  assert ((c <? 128)%N = true) as ->; [|by rewrite Hc].
  apply N.ltb_lt. unfold ascii_letter, ascii_upper_letter, ascii_lower_letter in Hc.
  apply orb_true_iff in Hc as [Hc%between_spec|Hc%between_spec]; lia.
Qed.

Lemma case_variant_cases (c d : N) :
  case_variant c d = true ->
  c = d \/ (between 97 122 c = true /\ d = (c - 32)%N) \/
  (between 97 122 d = true /\ c = (d - 32)%N).
Proof.
  unfold case_variant.
  intros [->%N.eqb_eq|[[Hc Hd]%andb_true_iff Heq%N.eqb_eq]%andb_true_iff]%orb_true_iff;
    [by left|].
  unfold ascii_lower, ascii_letter, ascii_upper_letter, ascii_lower_letter in *.
  rewrite orb_true_iff, !between_spec in Hc, Hd.
  destruct (between 65 90 c) eqn:Hc'; destruct (between 65 90 d) eqn:Hd';
    rewrite <- ?not_true_iff_false, ?between_spec in Hc', Hd'.
  - left. lia.
  - right. right. rewrite between_spec. lia.
  - right. left. rewrite between_spec. lia.
  - by left.
Qed.

Lemma word_variant (c d : N) : case_variant c d = true -> is_word c = is_word d.
Proof.
  unfold case_variant.
  intros [->%N.eqb_eq|[[Hc Hd]%andb_true_iff _]%andb_true_iff]%orb_true_iff; [done|].
  by rewrite !ascii_letter_word.
Qed.

Lemma atom_case_sound (ic : bool) (a : atom) (c d : N) :
  atom_case_blind ic a = true -> case_variant c d = true ->
  atom_match ic a c = atom_match ic a d.
Proof.
  unfold atom_case_blind. intros Hall [->|[[Hl ->]|[Hl ->]]]%case_variant_cases; [done| |].
  - apply elem_of_range_list in Hl. apply (forallb_elem_of _ _ _ Hall) in Hl.
    by apply eqb_prop in Hl.
  - apply elem_of_range_list in Hl. apply (forallb_elem_of _ _ _ Hall) in Hl.
    by apply eqb_prop in Hl.
Qed.

Section Variants.

Variable ic : bool.
Variables t t' : str.
Hypothesis Hv : case_variants t t'.

Lemma lookup_variant (i : nat) :
  (t !! i = None /\ t' !! i = None) \/
  (exists c d, t !! i = Some c /\ t' !! i = Some d /\ case_variant c d = true).
Proof.
  pose proof (proj1 (Forall2_lookup _ t t') Hv i) as Hi.
  inversion Hi; [right|left]; eauto.
Qed.

Lemma word_at_variant (i : nat) : word_at t i = word_at t' i.
Proof.
  unfold word_at. destruct (lookup_variant i) as [[-> ->]|(c & d & -> & -> & Hcd)]; [done|].
  by apply word_variant.
Qed.

Lemma count_variant (a : atom) (l l' : str) :
  atom_case_blind ic a = true -> Forall2 (fun c d => case_variant c d = true) l l' ->
  count ic a l = count ic a l'.
Proof.
  intros Ha. induction 1 as [|c d l l' Hcd _ IH]; [done|]. simpl.
  by rewrite (atom_case_sound ic a c d Ha Hcd), IH.
Qed.

Lemma window_variant (i : nat) (hi : option nat) :
  Forall2 (fun c d => case_variant c d = true) (window t i hi) (window t' i hi).
Proof. destruct hi; simpl; [apply Forall2_take|]; by apply Forall2_drop. Qed.

Lemma ends_variant (r : regex) :
  case_blind ic r = true -> forall i, ends ic t r i = ends ic t' r i.
Proof.
  induction r as [a|lo hi a| | |r1 IH1 r2 IH2|r1 IH1 r2 IH2|]; intros Hr i;
    cbn [case_blind] in Hr; simpl.
  - destruct (lookup_variant i) as [[-> ->]|(c & d & -> & -> & Hcd)]; [done|].
    by rewrite (atom_case_sound ic a c d Hr Hcd).
  - by rewrite (count_variant a _ _ Hr (window_variant i hi)).
  - done.
  - unfold at_boundary. rewrite word_at_variant. by destruct i; rewrite ?word_at_variant.
  - apply andb_true_iff in Hr as [H1 H2]. by rewrite IH1, IH2.
  - apply andb_true_iff in Hr as [H1 H2]. rewrite IH1 by done.
    apply list_bind_ext; [|done]. intros k. by apply IH2.
  - done.
Qed.

End Variants.

Lemma has_match_variant (p : pattern) (t t' : str) :
  case_blind (pat_ignorecase p) (pat_regex p) = true -> case_variants t t' ->
  has_match p t = has_match p t'.
Proof.
  intros Hp Hv.
  assert (forall i adv, match_at p t i adv = match_at p t' i adv) as Hm.
  { intros i adv. unfold match_at. by rewrite (ends_variant _ t t'). }
  assert (forall left adv i, scan p t adv i left = scan p t' adv i left) as Hs.
  { induction left as [|left IH]; intros adv i; simpl; rewrite Hm; [done|].
    by rewrite IH. }
  unfold has_match, search, search_from. by rewrite Hs, (Forall2_length _ _ _ Hv).
Qed.


(** X7: changing the case of ASCII letters in a text changes the outcome
    of neither check. *)
Theorem letter_case_is_ignored (t t' : str) :
  case_variants t t' ->
  value (contains_contact_info (Some t)) = value (contains_contact_info (Some t')) /\
  has_contact_info (value (detect_contact_info (Some t))) =
  has_contact_info (value (detect_contact_info (Some t'))).
Proof.
  intros Hv.
  destruct (decide (t = [])) as [->|Ht].
  { by apply Forall2_nil_inv_l in Hv as ->. }
  assert (t' <> []) as Ht'. { intros ->. by apply Forall2_nil_inv_r in Hv. }
  destruct all_patterns_checked as (_ & _ & _ & _ & Hall).
  assert (forall p, p ∈ EMAIL_PATTERN :: PHONE_PATTERNS ++ SOCIAL_PATTERNS ->
                    has_match p t = has_match p t') as Hsame.
  { intros p Hp. apply has_match_variant; [|done].
    by apply (forallb_elem_of _ _ p) in Hall. }
  assert (forall ps, (forall p, p ∈ ps -> has_match p t = has_match p t') ->
                     existsb (fun p => has_match p t) ps = existsb (fun p => has_match p t') ps)
    as Hex.
  { intros ps Hps. induction ps as [|q ps IH]; [done|]. simpl.
    rewrite (Hps q) by (apply elem_of_cons; auto). f_equal. apply IH.
    intros p Hp. apply Hps, elem_of_cons. auto. }
  rewrite !contains_value, !detect_value by done. cbn [has_contact_info].
  rewrite (Hsame EMAIL_PATTERN) by (apply pattern_in_tables; auto).
  rewrite (Hex PHONE_PATTERNS), (Hex SOCIAL_PATTERNS); [done| |];
    intros p Hp; apply Hsame, pattern_in_tables; auto.
Qed.

(** ** The order of the email entries *)

Lemma slice_drop (t : str) (a b : nat) :
  a <= b -> b <= length t -> slice t a b ++ drop b t = drop a t.
Proof.
  intros Hab Hb. unfold slice.
  replace (drop b t) with (drop (b - a) (drop a t)); [apply take_drop|].
  rewrite drop_drop. f_equal. lia.
Qed.

Lemma findall_loop_interleave (p : pattern) (t : str) (fuel : nat) :
  forall start adv, start <= length t ->
    exists gaps, length gaps = S (length (findall_loop fuel p t start adv)) /\
                 interleave gaps (findall_loop fuel p t start adv) = drop start t.
Proof.
  induction fuel as [|fuel IH]; intros start adv Hstart; simpl.
  - by exists [drop start t].
  - destruct (search_from p t start adv) as [[s e]|] eqn:Hs; [|by exists [drop start t]].
    apply search_from_Some in Hs as (? & ? & ? & _); [|done].
    destruct (IH e (e =? s) ltac:(done)) as (gaps & Hlen & Hgaps).
    exists (slice t start s :: gaps). split; [simpl; lia|].
    simpl. rewrite Hgaps, !slice_drop by lia. done.
Qed.

(** X8: the email entries are occurrences in the text that follow one
    another without overlap, listed in the order in which they occur:
    the text is [g0 ++ e1 ++ g1 ++ ... ++ en ++ gn] for the entries
    [e1, ..., en] and some gaps [g0, ..., gn]. *)
Theorem emails_in_text_order (t : str) (l : list str) :
  details (value (detect_contact_info (Some t))) !! "emails" = Some l ->
  exists gaps, length gaps = S (length l) /\ interleave gaps l = t.
Proof.
  destruct (decide (t = [])) as [->|Ht]; [done|].
  rewrite detect_value by done. cbn [details]. rewrite report_emails. intros [= <-].
  apply (findall_loop_interleave EMAIL_PATTERN t (findall_fuel t) 0 false). lia.
Qed.

(** ** Checking files *)

Lemma contains_detect_value (text : option str) :
  value (contains_contact_info text) = has_contact_info (value (detect_contact_info text)).
Proof.
  destruct text as [t|]; [|done].
  destruct (decide (t = [])) as [->|Ht]; [done|].
  by rewrite contains_value, detect_value.
Qed.

(** What [open(file_path, 'r', encoding='utf-8')] and [f.read()] raise. *)
Inductive io_error :=
| FileNotFoundError
| PermissionError
| IsADirectoryError
| UnicodeDecodeError
| OtherOSError.

(** A call returns a value or raises. *)
Inductive outcome (A : Type) :=
| Returned (x : A)
| Raised (e : io_error).

Arguments Returned {A} x.
Arguments Raised {A} e.

Section Files.

(** The files as the program finds them: what
    [with open(file_path, 'r', encoding='utf-8') as f: text = f.read()]
    binds [text] to, or the exception it raises. *)
Variable read_text : string -> outcome str.

Definition check_file (file_path : string) : outcome (Traced bool) :=
  match read_text file_path with
  | Returned text => Returned (contains_contact_info (Some text))
  | Raised e => Raised e
  end.

Definition detect_from_file (file_path : string) : outcome (Traced DetectionResult) :=
  match read_text file_path with
  | Returned text => Returned (detect_contact_info (Some text))
  | Raised e => Raised e
  end.

(** X9: on every path [check_file] and [detect_from_file] either raise
    the same exception, the one raised by reading the file, or both
    return, the boolean of the first being [has_contact_info] of the
    second. *)
Theorem file_checks_agree (file_path : string) :
  match check_file file_path, detect_from_file file_path with
  | Returned b, Returned r =>
      exists text, read_text file_path = Returned text /\
                   value b = has_contact_info (value r)
  | Raised e, Raised e' => e = e' /\ read_text file_path = Raised e
  | _, _ => False
  end.
Proof.
  unfold check_file, detect_from_file. destruct (read_text file_path) as [text|e]; [|done].
  exists text. split; [done|]. apply contains_detect_value.
Qed.

End Files.

(** ** The digits of a phone entry *)

Lemma slice_app (t : str) (i k j : nat) :
  i <= k -> k <= j -> slice t i k ++ slice t k j = slice t i j.
Proof.
  intros Hik Hkj. unfold slice.
  replace (drop k t) with (drop (k - i) (drop i t)) by (rewrite drop_drop; f_equal; lia).
  rewrite take_take_drop. f_equal. lia.
Qed.

Lemma slice_one (t : str) (i : nat) (c : N) : t !! i = Some c -> slice t i (S i) = [c].
Proof.
  intros Hc. unfold slice. replace (S i - i) with 1 by lia.
  destruct (drop i t) as [|d l] eqn:Hd.
  - apply (f_equal (lookup 0)) in Hd. rewrite lookup_drop, Nat.add_0_r, Hc in Hd. done.
  - apply (f_equal (lookup 0)) in Hd. rewrite lookup_drop, Nat.add_0_r, Hc in Hd.
    simpl in Hd. by injection Hd as ->.
Qed.

Lemma count_decimal_app (l1 l2 : str) :
  count_decimal (l1 ++ l2) = count_decimal l1 + count_decimal l2.
Proof. unfold count_decimal. by rewrite List.filter_app, length_app. Qed.

Lemma count_decimal_all (l : str) :
  (forall n c, l !! n = Some c -> is_decimal c = true) -> count_decimal l = length l.
Proof.
  unfold count_decimal. induction l as [|c l IH]; intros Hall; [done|]. simpl.
  rewrite (Hall 0 c eq_refl). simpl. f_equal. apply IH. intros n d Hd. by apply (Hall (S n)).
Qed.

Lemma item_decimal_sound (it : set_item) (c : N) :
  item_decimal it = true -> item_match it c = true -> is_decimal c = true.
Proof.
  destruct it as [a|lo hi|[|]]; simpl; intros Hw Hm; try done.
  - by apply N.eqb_eq in Hm as ->.
  - by eapply forallb_elem_of, elem_of_range_list.
Qed.

Lemma atom_decimal_sound (ic : bool) (a : atom) (c : N) :
  atom_decimal ic a = true -> atom_match ic a c = true -> is_decimal c = true.
Proof.
  destruct a as [x|items]; simpl; intros [Hic%negb_true_iff Hw]%andb_true_iff; rewrite Hic.
  - by intros ->%N.eqb_eq.
  - intros (it & Hit & Hm)%existsb_exists.
    eapply item_decimal_sound; [|done]. by eapply forallb_elem_of, list_elem_of_In.
Qed.

Lemma ends_digits (ic : bool) (t : str) (r : regex) :
  forall i j, j ∈ ends ic t r i -> min_digits ic r <= count_decimal (slice t i j).
Proof.
  induction r as [a|lo hi a| | |r1 IH1 r2 IH2|r1 IH1 r2 IH2|]; intros i j Hj;
    cbn [min_digits]; try lia.
  - destruct (atom_decimal ic a) eqn:Ha; [|lia].
    apply elem_of_ends_one in Hj as (c & Hc & Hm & ->).
    rewrite (slice_one t i c Hc). unfold count_decimal. simpl.
    by rewrite (atom_decimal_sound ic a c Ha Hm).
  - destruct (atom_decimal ic a) eqn:Ha; [|lia].
    pose proof Hj as (k & -> & Hlo & Hk)%elem_of_ends_repeat.
    destruct (decide (k = 0)) as [->|Hk0]; [lia|].
    destruct (repeat_char ic t lo hi a i (i + k) (i + k - 1) Hj) as (c & Hc & _); [lia|].
    apply lookup_lt_Some in Hc.
    rewrite count_decimal_all.
    + rewrite length_slice by lia. lia.
    + intros n d. rewrite lookup_slice. case_decide; [|done]. intros Hd.
      destruct (repeat_char ic t lo hi a i (i + k) (i + n) Hj) as (d' & Hd' & Hm); [lia|].
      rewrite Hd in Hd'. injection Hd' as <-. by eapply atom_decimal_sound.
  - simpl in Hj. apply elem_of_app in Hj as [Hj%IH1|Hj%IH2]; lia.
  - apply elem_of_ends_seq in Hj as (k & Hk & Hj).
    pose proof (ends_forward _ _ _ _ _ Hk). pose proof (ends_forward _ _ _ _ _ Hj).
    rewrite <- (slice_app t i k j), count_decimal_app by done.
    apply IH1 in Hk. apply IH2 in Hj. lia.
Qed.

Lemma phone_patterns_digits :
  forallb (fun p => 10 <=? min_digits (pat_ignorecase p) (pat_regex p)) PHONE_PATTERNS = true.
Proof. vm_compute. reflexivity. Qed.

(** X10: every phone entry of the report contains at least ten decimal
    digits. *)
Theorem phone_entry_digits (text : option str) (l : list str) (m : str) :
  details (value (detect_contact_info text)) !! "phones" = Some l -> m ∈ l ->
  10 <= count_decimal m.
Proof.
  destruct text as [t|]; [destruct (decide (t = [])) as [->|Ht]|]; [done| |done].
  rewrite detect_value by done. cbn [details]. rewrite report_phones. intros Hl Hm.
  assert (l = list_set (all_matches PHONE_PATTERNS t)) as -> by congruence.
  rewrite elem_of_list_set in Hm.
  apply elem_of_all_matches in Hm as (p & Hp & (s & e & -> & _ & _ & He)%findall_elem).
  apply (forallb_elem_of _ _ p phone_patterns_digits) in Hp. apply Nat.leb_le in Hp.
  apply ends_digits in He. lia.
Qed.

(** ** The order of the patterns in a table *)

Lemma existsb_Permutation {A} (f : A -> bool) (l l' : list A) :
  l ≡ₚ l' -> existsb f l = existsb f l'.
Proof.
  induction 1 as [|x l l' _ IH|x y l|l1 l2 l3 _ IH1 _ IH2]; simpl.
  - done.
  - by rewrite IH.
  - by rewrite !orb_assoc, (orb_comm (f y)).
  - by rewrite IH1.
Qed.

Lemma dedupe_extend_lookup (key : string) (ps : list pattern) (t : str)
    (found : gmap string (list str)) (m : str) :
  m ∈ dedupe key (value (extend_all key ps t found)) !!! key <->
  is_Some (found !! key) /\ (m ∈ found !!! key \/ m ∈ all_matches ps t).
Proof.
  unfold dedupe. rewrite lookup_total_insert_eq, elem_of_list_set, extend_all_value.
  rewrite !lookup_total_alt, lookup_alter, decide_True by done.
  destruct (found !! key) as [l|]; simpl.
  - rewrite elem_of_app. split; [intros ?; split; [by eexists|done]|by intros [_ ?]].
  - split; [by intros ?%not_elem_of_nil|]. by intros [[? [=]] _].
Qed.

(** X11: the loops over a pattern table do not depend on the order of the
    table: for a permuted table the loop of the boolean check returns the
    same value, and the deduplicated list built by the loop of the
    detailed check has the same members. *)
Theorem pattern_order_is_irrelevant (ps ps' : list pattern) (t : str) (key : string)
    (found : gmap string (list str)) :
  ps ≡ₚ ps' ->
  value (search_any ps t) = value (search_any ps' t) /\
  (forall m, m ∈ dedupe key (value (extend_all key ps t found)) !!! key <->
             m ∈ dedupe key (value (extend_all key ps' t found)) !!! key).
Proof.
  intros Hperm. split.
  - rewrite !search_any_value. by apply existsb_Permutation.
  - intros m. rewrite !dedupe_extend_lookup, !elem_of_all_matches.
    by setoid_rewrite Hperm.
Qed.

(** ** The ['@'] of an email entry *)

Lemma occurrences_app (x : N) (l1 l2 : str) :
  occurrences x (l1 ++ l2) = occurrences x l1 + occurrences x l2.
Proof. unfold occurrences. by rewrite List.filter_app, length_app. Qed.

Lemma occurrences_le_length (x : N) (l : str) : occurrences x l <= length l.
Proof. unfold occurrences. apply List.filter_length_le. Qed.

Lemma occurrences_none (x : N) (l : str) :
  (forall n c, l !! n = Some c -> c <> x) -> occurrences x l = 0.
Proof.
  unfold occurrences. induction l as [|c l IH]; intros Hall; [done|]. simpl.
  destruct (N.eqb_spec x c) as [->|_]; [by destruct (Hall 0 c eq_refl)|].
  apply IH. intros n d Hd. by apply (Hall (S n)).
Qed.

Lemma atom_only_sound (ic : bool) (x : N) (a : atom) (c : N) :
  atom_only ic x a = true -> atom_match ic a c = true -> c = x.
Proof.
  destruct a as [y|items]; simpl; [|done].
  intros [Hic%negb_true_iff ->%N.eqb_eq]%andb_true_iff. rewrite Hic.
  by intros ->%N.eqb_eq.
Qed.

Lemma ends_occurrences (ic : bool) (x : N) (t : str) (r : regex) :
  forall i j, j ∈ ends ic t r i ->
              (occurrence_bounds ic x r).1 <= occurrences x (slice t i j) /\
              (forall n, (occurrence_bounds ic x r).2 = Some n ->
                         occurrences x (slice t i j) <= n).
Proof.
  induction r as [a|lo hi a| | |r1 IH1 r2 IH2|r1 IH1 r2 IH2|]; intros i j Hj;
    cbn [occurrence_bounds].
  - apply elem_of_ends_one in Hj as (c & Hc & Hm & ->).
    rewrite (slice_one t i c Hc). unfold occurrences. simpl.
    destruct (atom_match ic a x) eqn:Hx; simpl.
    + split; [|intros n [= <-]; destruct (x =? c)%N; simpl; lia].
      destruct (atom_only ic x a) eqn:Ho; [|lia].
      rewrite (atom_only_sound ic x a c Ho Hm), N.eqb_refl. simpl. lia.
    + assert ((x =? c)%N = false) as ->; [|simpl; split; [lia|intros n [= <-]; lia]].
      apply N.eqb_neq. intros ->. congruence.
  - pose proof (ends_forward _ _ _ _ _ Hj).
    destruct (atom_match ic a x) eqn:Hx; simpl.
    + split; [lia|]. intros n ->.
      pose proof (occurrences_le_length x (slice t i j)) as Hle.
      unfold slice in *. rewrite length_take in Hle.
      destruct (ends_length ic t (Repeat lo (Some n) a) i j Hj) as [_ HM].
      specialize (HM n eq_refl). lia.
    + rewrite occurrences_none; [split; [lia|intros n [= <-]; lia]|].
      intros n c. rewrite lookup_slice. case_decide; [|done]. intros Hc ->.
      destruct (repeat_char ic t lo hi a i j (i + n) Hj) as (d & Hd & Hm); [lia|].
      congruence.
  - rewrite (zero_width_sound ic t AtBeginning eq_refl _ _ Hj).
    unfold slice. rewrite Nat.sub_diag. simpl. split; [done|]. intros n [= <-]. done.
  - rewrite (zero_width_sound ic t AtBoundary eq_refl _ _ Hj).
    unfold slice. rewrite Nat.sub_diag. simpl. split; [done|]. intros n [= <-]. done.
  - simpl in Hj.
    destruct (occurrence_bounds ic x r1) as [lo1 hi1], (occurrence_bounds ic x r2) as [lo2 hi2].
    simpl in *.
    apply elem_of_app in Hj as [[Hm HM]%IH1|[Hm HM]%IH2]; (split; [lia|]);
      destruct hi1 as [n1|], hi2 as [n2|]; try done;
      intros n [= <-]; specialize (HM _ eq_refl); lia.
  - apply elem_of_ends_seq in Hj as (k & Hk & Hj).
    pose proof (ends_forward _ _ _ _ _ Hk). pose proof (ends_forward _ _ _ _ _ Hj).
    rewrite <- (slice_app t i k j), occurrences_app by done.
    destruct (occurrence_bounds ic x r1) as [lo1 hi1], (occurrence_bounds ic x r2) as [lo2 hi2].
    simpl in *.
    apply IH1 in Hk as [Hm1 HM1]. apply IH2 in Hj as [Hm2 HM2]. split; [lia|].
    destruct hi1 as [n1|], hi2 as [n2|]; try done.
    intros n [= <-]. specialize (HM1 _ eq_refl). specialize (HM2 _ eq_refl). lia.
  - rewrite (zero_width_sound ic t Empty eq_refl _ _ Hj).
    unfold slice. rewrite Nat.sub_diag. simpl. split; [done|]. intros n [= <-]. done.
Qed.

Lemma email_pattern_at_sign :
  occurrence_bounds (pat_ignorecase EMAIL_PATTERN) 64 (pat_regex EMAIL_PATTERN) = (1, Some 1).
Proof. vm_compute. reflexivity. Qed.

(** X12: every email entry of the report contains exactly one ['@']. *)
Theorem email_entry_has_one_at_sign (text : option str) (l : list str) (m : str) :
  details (value (detect_contact_info text)) !! "emails" = Some l -> m ∈ l ->
  occurrences 64 m = 1.
Proof.
  destruct text as [t|]; [destruct (decide (t = [])) as [->|Ht]|]; [done| |done].
  rewrite detect_value by done. cbn [details]. rewrite report_emails. intros Hl Hm.
  assert (l = findall EMAIL_PATTERN t) as -> by congruence.
  apply findall_elem in Hm as (s & e & -> & _ & _ & He).
  apply (ends_occurrences _ 64) in He as [Hlo Hhi].
  rewrite email_pattern_at_sign in Hlo, Hhi. simpl in Hlo, Hhi.
  specialize (Hhi 1 eq_refl). lia.
Qed.

End Unicode.

(** * Concrete instances

    The texts below are ASCII, so that the rows of the Unicode database
    beyond ASCII play no part in them; they are evaluated with
    [ascii_only]. *)

(** C5 at ["call 09171234567"]: the email pattern and the first phone
    pattern fail, the second phone pattern matches and ends the search. *)
Lemma quick_check_order_witness :
  value (contains_contact_info ascii_only (Some (codes "call 09171234567"))) = true /\
  trace (contains_contact_info ascii_only (Some (codes "call 09171234567"))) =
  Searched <$> EMAIL_PATTERN :: take 2 PHONE_PATTERNS.
Proof.
  destruct (quick_check_order ascii_only (codes "call 09171234567")) as (_ & H & _).
  - vm_compute. discriminate.
  - apply (H ltac:(vm_compute; reflexivity)
             (take 1 PHONE_PATTERNS) (nth 1 PHONE_PATTERNS EMAIL_PATTERN)
             (drop 2 PHONE_PATTERNS)).
    + reflexivity.
    + intros q Hq. cbn in Hq. apply list_elem_of_singleton in Hq as ->.
      vm_compute. reflexivity.
    + vm_compute. reflexivity.
Defined.

(** C6 at ["Call me at 0917-123-4567"] and its phone entry. *)
Lemma reported_string_matches_its_category_witness :
  exists p, p ∈ category_patterns "phones" /\
            has_match ascii_only p (codes "0917-123-4567") = true.
Proof.
  apply (reported_string_matches_its_category ascii_only
           (Some (codes "Call me at 0917-123-4567")) "phones"
           [codes "0917-123-4567"]).
  - vm_compute. reflexivity.
  - apply list_elem_of_singleton. reflexivity.
Defined.

(** C9 at ["x"]. *)
Lemma details_keys_witness :
  dom (details (value (detect_contact_info ascii_only (Some (codes "x"))))) =
  {["emails"; "phones"; "social"]}.
Proof.
  destruct (details_keys ascii_only (codes "x")) as [H _].
  - vm_compute. discriminate.
  - exact H.
Defined.

(** C10 at ["Contact me at john.doe@email.com"] and its email entry. *)
Lemma reported_string_is_substring_witness :
  substring (codes "john.doe@email.com") (codes "Contact me at john.doe@email.com").
Proof.
  apply (reported_string_is_substring ascii_only
           (codes "Contact me at john.doe@email.com") "emails"
           [codes "john.doe@email.com"]).
  - vm_compute. reflexivity.
  - apply list_elem_of_singleton. reflexivity.
Defined.

(** X1 at ["0917-123-4567 0917-123-4567"]: one phone entry. *)
Lemma phones_and_social_distinct_witness : NoDup [codes "0917-123-4567"].
Proof.
  apply (phones_and_social_distinct ascii_only
           (codes "0917-123-4567 0917-123-4567") "phones").
  - vm_compute. discriminate.
  - discriminate.
  - vm_compute. reflexivity.
Defined.

(** X2 at ["x"]. *)
Lemma detailed_check_evaluates_all_patterns_witness :
  trace (detect_contact_info ascii_only (Some (codes "x"))) =
  FoundAll <$> EMAIL_PATTERN :: PHONE_PATTERNS ++ SOCIAL_PATTERNS.
Proof.
  apply (detailed_check_evaluates_all_patterns ascii_only (codes "x")).
  vm_compute. discriminate.
Defined.

(** X3 at ["Call me at 0917-123-4567"] and its phone entry. *)
Lemma reported_string_lengths_witness :
  ("phones" = "emails" -> (6 <= length (codes "0917-123-4567"))%nat) /\
  ("phones" = "phones" -> (10 <= length (codes "0917-123-4567") <= 16)%nat) /\
  ("phones" = "social" -> (2 <= length (codes "0917-123-4567"))%nat).
Proof.
  apply (reported_string_lengths ascii_only (Some (codes "Call me at 0917-123-4567"))
           "phones" [codes "0917-123-4567"]).
  - vm_compute. reflexivity.
  - apply list_elem_of_singleton. reflexivity.
Defined.

(** X4 at ["I worked at Google."]. *)
Lemma plain_text_is_clean_witness :
  value (contains_contact_info ascii_only (Some (codes "I worked at Google."))) = false /\
  has_contact_info
    (value (detect_contact_info ascii_only (Some (codes "I worked at Google.")))) = false.
Proof.
  apply (plain_text_is_clean ascii_only (codes "I worked at Google.")).
  repeat (constructor; [vm_compute; reflexivity|]). constructor.
Defined.

(** X5 at ["Find me on LinkedIn: linkedin.com/in/johndoe"] and its social entry. *)
Lemma reported_string_is_flagged_witness :
  value (contains_contact_info ascii_only (Some (codes "linkedin.com/in/johndoe"))) = true /\
  has_contact_info
    (value (detect_contact_info ascii_only (Some (codes "linkedin.com/in/johndoe")))) = true.
Proof.
  apply (reported_string_is_flagged ascii_only
           (Some (codes "Find me on LinkedIn: linkedin.com/in/johndoe")) "social"
           [codes "linkedin.com/in/johndoe"]).
  - vm_compute. reflexivity.
  - apply list_elem_of_singleton. reflexivity.
Defined.

(** X6 at the email pattern, ["a@b.co"] and ["see a@b.co, thanks"]. *)
Lemma surrounding_text_hides_nothing_witness :
  value (contains_contact_info ascii_only (Some (codes "see a@b.co, thanks"))) = true.
Proof.
  apply (surrounding_text_hides_nothing ascii_only EMAIL_PATTERN (codes "a@b.co")).
  - apply elem_of_cons. left. reflexivity.
  - vm_compute. reflexivity.
  - vm_compute. reflexivity.
  - exists (codes "see "), (codes ", thanks"). vm_compute. reflexivity.
Defined.

(** X7 at ["Mail A@B.CO"] and ["mAIL a@b.co"]. *)
Lemma letter_case_is_ignored_witness :
  value (contains_contact_info ascii_only (Some (codes "Mail A@B.CO"))) =
  value (contains_contact_info ascii_only (Some (codes "mAIL a@b.co"))) /\
  has_contact_info (value (detect_contact_info ascii_only (Some (codes "Mail A@B.CO")))) =
  has_contact_info (value (detect_contact_info ascii_only (Some (codes "mAIL a@b.co")))).
Proof.
  apply (letter_case_is_ignored ascii_only).
  repeat (constructor; [vm_compute; reflexivity|]). constructor.
Defined.

(** X8 at ["a@b.co, c@d.org"]. *)
Lemma emails_in_text_order_witness :
  exists gaps, length gaps = 3%nat /\
               interleave gaps [codes "a@b.co"; codes "c@d.org"] = codes "a@b.co, c@d.org".
Proof.
  apply (emails_in_text_order ascii_only (codes "a@b.co, c@d.org")
           [codes "a@b.co"; codes "c@d.org"]).
  vm_compute. reflexivity.
Defined.

(** X10 at ["Office: +63 2 8888 1234"] and its phone entry. *)
Lemma phone_entry_digits_witness :
  (10 <= count_decimal ascii_only (codes "+63 2 8888 1234"))%nat.
Proof.
  apply (phone_entry_digits ascii_only (Some (codes "Office: +63 2 8888 1234"))
           [codes "+63 2 8888 1234"]).
  - vm_compute. reflexivity.
  - apply list_elem_of_singleton. reflexivity.
Defined.

(** X11 at the phone table and the same table backwards. *)
Lemma pattern_order_is_irrelevant_witness :
  value (search_any ascii_only PHONE_PATTERNS (codes "Text me at 09171234567")) =
  value (search_any ascii_only (reverse PHONE_PATTERNS) (codes "Text me at 09171234567")).
Proof.
  destruct (pattern_order_is_irrelevant ascii_only PHONE_PATTERNS (reverse PHONE_PATTERNS)
              (codes "Text me at 09171234567") "phones" ∅) as [H _].
  - symmetry. apply reverse_Permutation.
  - exact H.
Defined.

(** X12 at ["Contact me at john.doe@email.com"] and its email entry. *)
Lemma email_entry_has_one_at_sign_witness :
  occurrences 64 (codes "john.doe@email.com") = 1%nat.
Proof.
  apply (email_entry_has_one_at_sign ascii_only
           (Some (codes "Contact me at john.doe@email.com"))
           [codes "john.doe@email.com"]).
  - vm_compute. reflexivity.
  - apply list_elem_of_singleton. reflexivity.
Defined.
